(** * hash_to_poster: a seeded xorshift generator driving an SVG scene composer

    Shallow embedding of [Day_one/hash_to_poster.py].

    - Python [int] is [Z]; the 32-bit generator state is a [Z] with the
      masking written out ([Z.land _ MASK32]).
    - [str] is [string]; the seed stands for its UTF-8 encoding, which is
      the byte sequence [hashlib.sha256] receives.
    - The closure returned by [make_rng] becomes an explicit generator value
      threaded through every call (a small state monad).
    - Python [float] is IEEE-754 binary64.  A finite binary64 value is an
      exact rational, so floats are values of [Q] and every arithmetic
      operation is the exact operation followed by [fl], round-to-nearest,
      ties-to-even, 53 bits, gradual underflow.  A float operation that
      overflows to infinity and the sign of zero are outside the model;
      no infinity arises in [build_svg], and no negative zero reaches the
      text it writes, while the canvas size and the cell count stay below
      [2^1000] in magnitude.
    - [math.cos], [math.sin] are library functions; they are parameters.
    - Errors: [ValueError], [ZeroDivisionError], [OverflowError] and
      [SystemExit] are results.  [OverflowError] is what the conversion of
      an [int] to a float, and the division of two [int]s, raise when the
      rounded result is [2^1024] or more in magnitude.  [ValueError] is
      what writing an [int] of more than 4300 digits in decimal raises, by
      default, from Python 3.11 on; no theorem rests on it, the ones it
      could touch take the size below [10^4300].  The failures of the file
      system are outside the model.

    The second source file, [hash_to_poster.py] at the root, holds imports
    and two constants only. *)

From Stdlib Require Import ZArith QArith Qround Qpower Qabs List String Ascii Bool Lia Lqa.
From Stdlib Require Import DecimalString Floats.
From Stdlib Require DecimalZ DecimalPos.
Import ListNotations.

Local Open Scope Z_scope.

(* ================================================================== *)
(** ** hashlib.sha256 (FIPS 180-4), on bytes as [Z] *)
(* ================================================================== *)

Module Sha256.

Definition w32 (x : Z) : Z := x mod 2 ^ 32.

Definition rotr (n x : Z) : Z :=
  Z.lor (Z.shiftr x n) (w32 (Z.shiftl x (32 - n))).

Definition Ch (x y z : Z) : Z :=
  Z.lxor (Z.land x y) (Z.land (Z.lxor x 0xFFFFFFFF) z).

Definition Maj (x y z : Z) : Z :=
  Z.lxor (Z.lxor (Z.land x y) (Z.land x z)) (Z.land y z).

Definition bsig0 (x : Z) : Z := Z.lxor (Z.lxor (rotr 2 x) (rotr 13 x)) (rotr 22 x).
Definition bsig1 (x : Z) : Z := Z.lxor (Z.lxor (rotr 6 x) (rotr 11 x)) (rotr 25 x).
Definition ssig0 (x : Z) : Z := Z.lxor (Z.lxor (rotr 7 x) (rotr 18 x)) (Z.shiftr x 3).
Definition ssig1 (x : Z) : Z := Z.lxor (Z.lxor (rotr 17 x) (rotr 19 x)) (Z.shiftr x 10).

(** The first 64 primes. *)
Definition is_prime (n : Z) : bool :=
  forallb (fun d => negb (n mod Z.of_nat d =? 0)) (seq 2 (Z.to_nat n - 2)).

Definition primes : list Z :=
  Eval vm_compute in firstn 64 (filter is_prime (map Z.of_nat (seq 2 310))).

(** [floor (cbrt n)], by bisection of [lo, hi). *)
Fixpoint cbrt_between (fuel : nat) (lo hi n : Z) : Z :=
  match fuel with
  | O => lo
  | S fuel' =>
      if hi - lo <=? 1 then lo
      else
        let mid := (lo + hi) / 2 in
        if mid * mid * mid <=? n then cbrt_between fuel' mid hi n
        else cbrt_between fuel' lo mid n
  end.

(** The round constants: the first 32 bits of the fractional parts of the
    cube roots of the first 64 primes. *)
Definition K : list Z :=
  Eval vm_compute in map (fun p => w32 (cbrt_between 64 0 (2 ^ 36) (p * 2 ^ 96))) primes.

(** The initial hash value: the same of the square roots of the first 8
    primes. *)
Definition H0 : list Z :=
  Eval vm_compute in map (fun p => w32 (Z.sqrt (p * 2 ^ 64))) (firstn 8 primes).

(** One round on the working variables [a; b; c; d; e; f; g; h]. *)
Definition round (v : list Z) (k w : Z) : list Z :=
  match v with
  | [a; b; c; d; e; f; g; h] =>
      let t1 := h + bsig1 e + Ch e f g + k + w in
      let t2 := bsig0 a + Maj a b c in
      [w32 (t1 + t2); a; b; c; w32 (d + t1); e; f; g]
  | _ => v
  end.

(** The message schedule is kept as a window of the 16 most recent words. *)
Fixpoint rounds (ks : list Z) (win : list Z) (v : list Z) : list Z :=
  match ks with
  | [] => v
  | k :: ks' =>
      let w := nth 0 win 0 in
      let nxt := w32 (ssig1 (nth 14 win 0) + nth 9 win 0 + ssig0 (nth 1 win 0) + w) in
      rounds ks' (tl win ++ [nxt]) (round v k w)
  end.

Fixpoint be_words (bs : list Z) (n : nat) : list Z :=
  match n, bs with
  | S n', b0 :: b1 :: b2 :: b3 :: rest =>
      (((b0 * 256 + b1) * 256 + b2) * 256 + b3) :: be_words rest n'
  | _, _ => []
  end.

Definition compress (h : list Z) (block : list Z) : list Z :=
  map (fun p => w32 (fst p + snd p)) (combine h (rounds K (be_words block 16) h)).

Fixpoint blocks (n : nat) (bs : list Z) (h : list Z) : list Z :=
  match n with
  | O => h
  | S n' => blocks n' (skipn 64 bs) (compress h (firstn 64 bs))
  end.

Definition be_bytes (n : nat) (x : Z) : list Z :=
  map (fun i => (x / 256 ^ Z.of_nat i) mod 256) (rev (seq 0 n)).

Definition pad (msg : list Z) : list Z :=
  let len := Z.of_nat (List.length msg) in
  let zeros := Z.to_nat ((55 - len) mod 64) in
  msg ++ [0x80] ++ repeat 0 zeros ++ be_bytes 8 (8 * len).

Definition digest (msg : list Z) : list Z :=
  let p := pad msg in
  flat_map (be_bytes 4) (blocks (List.length p / 64) p H0).

End Sha256.

Definition encode_utf8 (s : string) : list Z :=
  map (fun c => Z.of_N (N_of_ascii c)) (list_ascii_of_string s).

Definition hex_of (bs : list Z) : Z := fold_left (fun acc b => acc * 256 + b) bs 0.

(* ================================================================== *)
(** ** Binary64 arithmetic on exact rationals *)
(* ================================================================== *)

Module Float.

Local Open Scope Q_scope.

Definition emin : Z := (-1074)%Z.

(** [floor (log2 q)] for [0 < q]. *)
Definition ilog2 (q : Q) : Z :=
  let e0 := (Z.log2 (Qnum q) - Z.log2 (Zpos (Qden q)))%Z in
  if Qle_bool (2 ^ e0) q then e0 else (e0 - 1)%Z.

(** Exponent of the last place of the binary64 format at magnitude [q]. *)
Definition ulp_exp (q : Q) : Z := Z.max (ilog2 q - 52) emin.

(** Round to the nearest integer, ties to even. *)
Definition rne (q : Q) : Z :=
  let f := Qfloor q in
  match Qcompare (q - inject_Z f) (1 # 2) with
  | Lt => f
  | Gt => (f + 1)%Z
  | Eq => if Z.even f then f else (f + 1)%Z
  end.

Definition round_pos (q : Q) : Q :=
  let e := ulp_exp q in Qred (inject_Z (rne (q / 2 ^ e)) * 2 ^ e).

(** Correct rounding of a real (here rational) result to binary64. *)
Definition fl (q : Q) : Q :=
  match Qnum q with
  | Z0 => 0
  | Zpos _ => round_pos q
  | Zneg _ => - round_pos (- q)
  end.

Definition add (a b : Q) : Q := fl (a + b).
Definition sub (a b : Q) : Q := fl (a - b).
Definition mul (a b : Q) : Q := fl (a * b).
Definition div (a b : Q) : Q := fl (a / b).

(** [float(n)] for a Python [int]. *)
Definition of_int (n : Z) : Q := fl (inject_Z n).

Definition ltb (a b : Q) : bool := negb (Qle_bool b a).

End Float.

Declare Scope py_scope.
Delimit Scope py_scope with py.
Infix "+!" := Float.add (at level 50, left associativity) : py_scope.
Infix "-!" := Float.sub (at level 50, left associativity) : py_scope.
Infix "*!" := Float.mul (at level 40, left associativity) : py_scope.
Infix "/!" := Float.div (at level 40, left associativity) : py_scope.

(* ================================================================== *)
(** ** The seeded bit generator *)
(* ================================================================== *)

Definition MASK32 : Z := 0xFFFFFFFF.

(** The closure's [state], and a ghost count of the calls made so far. *)
Record Gen : Type := mkGen { state : Z; draws : nat }.

(** Code that calls the generator: explicit state passing. *)
Definition M (A : Type) : Type := Gen -> A * Gen.

Definition ret {A : Type} (a : A) : M A := fun g => (a, g).

Definition bind {A B : Type} (m : M A) (k : A -> M B) : M B :=
  fun g => let (a, g') := m g in k a g'.

Notation "x <- m ;; k" := (bind m (fun x => k))
  (at level 61, m at next level, right associativity).

(** [int.from_bytes(bs, "big")] *)
Definition from_bytes_big (bs : list Z) : Z :=
  fold_left (fun acc b => acc * 256 + b) bs 0.

Definition make_rng (seed : string) : Gen :=
  let seed_bytes := Sha256.digest (encode_utf8 seed) in
  let s := from_bytes_big (firstn 4 seed_bytes) in
  {| state := if s =? 0 then 1 else s; draws := 0 |}.

(** The body of [next_u32] on the value of [state]. *)
Definition xorshift (s : Z) : Z :=
  let s := Z.lxor s (Z.land (Z.shiftl s 13) MASK32) in
  let s := Z.lxor s (Z.shiftr s 17) in
  let s := Z.lxor s (Z.land (Z.shiftl s 5) MASK32) in
  Z.land s MASK32.

Definition next_u32 : M Z := fun g =>
  let s := xorshift (state g) in (s, {| state := s; draws := S (draws g) |}).

(** The state after [n] further calls. *)
Definition after_draws (n : nat) (g : Gen) : Gen :=
  Nat.iter n (fun g' => snd (next_u32 g')) g.

Local Open Scope py_scope.

Definition rand01 : M Q :=
  u <- next_u32 ;; ret (Float.of_int u /! 4294967296).

(* ================================================================== *)
(** ** Colours and number formatting *)
(* ================================================================== *)

Local Open Scope string_scope.

(** [str(n)] for an [int]. *)
Definition str (n : Z) : string := NilZero.string_of_int (Z.to_int n).

(** The character of a decimal digit. *)
Definition digit (d : Z) : string :=
  String (ascii_of_N (48 + Z.to_N d)) EmptyString.

(** The lift applied to a dark colour. *)
Definition brighten_rgb (c : Z * Z * Z) : Z * Z * Z :=
  let '(r, g, b) := c in
  let bump := (180 - (r + g + b)) / 3 + 1 in
  (Z.min 255 (r + bump), Z.min 255 (g + bump), Z.min 255 (b + bump)).

Definition rgb_channels (brighten : bool) : M (Z * Z * Z) :=
  u1 <- next_u32 ;;
  let r := Z.land u1 255 in
  u2 <- next_u32 ;;
  let g := Z.land (Z.shiftr u2 8) 255 in
  u3 <- next_u32 ;;
  let b := Z.land (Z.shiftr u3 16) 255 in
  if brighten && (r + g + b <? 180)%Z
  then ret (brighten_rgb (r, g, b))
  else ret (r, g, b).

Definition rgb_text (c : Z * Z * Z) : string :=
  let '(r, g, b) := c in
  "rgb(" ++ str r ++ ", " ++ str g ++ ", " ++ str b ++ ")".

Definition rgb (brighten : bool) : M string :=
  c <- rgb_channels brighten ;; ret (rgb_text c).

(** The magnitude of [x] in hundredths, rounded to nearest, ties to even. *)
Definition hundredths (x : Q) : Z := Float.rne (Qabs x * 100).

(** [f(x)], that is [format(x, ".2f")]: the exact value of the float,
    correctly rounded to two decimals; a negative value keeps its sign even
    when it rounds to zero. *)
Definition f (x : Q) : string :=
  let n := hundredths x in
  (if Float.ltb x 0 then "-" else "")
  ++ str (n / 100) ++ "." ++ digit (n / 10 mod 10) ++ digit (n mod 10).

(* ================================================================== *)
(** ** The scene composer *)
(* ================================================================== *)

(** A float literal of the source: the decimal, correctly rounded. *)
Definition lit (q : Q) : Q := Float.fl q.

(** [a / b] on two [int]s ([b] non-zero): the quotient, correctly rounded. *)
Definition int_div (a b : Z) : Q := Float.fl (inject_Z a / inject_Z b).

(** A rounded value a binary64 number can hold: below [2^1024] in
    magnitude.  The conversion of an [int] and the division of two [int]s
    raise [OverflowError] when their rounded result is not. *)
Definition in_range (x : Q) : bool :=
  negb (Qle_bool (inject_Z (2 ^ 1024)) (Qabs x)).

(** An [int] that [str] and an f-string write: one of at most 4300
    digits, the default limit of the interpreter; a longer one raises
    [ValueError]. *)
Definition writable (n : Z) : bool := (Z.abs n <? 10 ^ 4300)%Z.

(** [math.pi], the double 0x1.921fb54442d18p+1. *)
Definition math_pi : Q := 884279719003555 # 281474976710656.

(** One entry of [parts], holding the values its f-string formats. *)
Inductive part : Type :=
| SvgOpen (size : Z)
| Background (size : Z) (fill : string)
| GridRect (x y w h : Q) (fill : string) (alpha : Q)
| GridCircle (cx cy r : Q) (fill : string) (alpha : Q)
| Ray (x1 y1 x2 y2 : Q) (stroke : string) (width : Z)
| Anchor (cx cy r : Q) (fill : string)
| SvgClose.

(** The markup of an entry: a tag, its attributes in order, and how the
    tag ends. *)
Inductive ending : Type := OpenTag | EmptyTag | CloseTag.

Record node : Type := mkNode
  { tag : string; attrs : list (string * string); close : ending }.

Definition node_of (p : part) : node :=
  match p with
  | SvgOpen size =>
      mkNode "svg" [("xmlns", "https://www.w3.org/TR/SVG2/");
                    ("width", str size); ("height", str size)] OpenTag
  | Background size fill =>
      mkNode "rect" [("width", str size); ("height", str size); ("fill", fill)] EmptyTag
  | GridRect x y w h fill alpha =>
      mkNode "rect" [("x", f x); ("y", f y); ("width", f w); ("height", f h);
                     ("fill", fill); ("fill-opacity", f alpha)] EmptyTag
  | GridCircle cx cy r fill alpha =>
      mkNode "circle" [("cx", f cx); ("cy", f cy); ("r", f r);
                       ("fill", fill); ("fill-opacity", f alpha)] EmptyTag
  | Ray x1 y1 x2 y2 stroke width =>
      mkNode "line" [("x1", f x1); ("y1", f y1); ("x2", f x2); ("y2", f y2);
                     ("stroke", stroke); ("stroke-width", f (Float.of_int width));
                     ("stroke-opacity", "0.8"); ("stroke-linecap", "round")] EmptyTag
  | Anchor cx cy r fill =>
      mkNode "circle" [("cx", f cx); ("cy", f cy); ("r", f r); ("fill", fill)] EmptyTag
  | SvgClose => mkNode "svg" [] CloseTag
  end.

Definition dquote : string := String (ascii_of_N 34) EmptyString.
Definition newline : string := String (ascii_of_N 10) EmptyString.

Definition render_attr (kv : string * string) : string :=
  " " ++ fst kv ++ "=" ++ dquote ++ snd kv ++ dquote.

Definition render_node (n : node) : string :=
  match close n with
  | OpenTag => "<" ++ tag n ++ String.concat "" (map render_attr (attrs n)) ++ ">"
  | EmptyTag => "<" ++ tag n ++ String.concat "" (map render_attr (attrs n)) ++ "/>"
  | CloseTag => "</" ++ tag n ++ ">"
  end.

Definition render (p : part) : string := render_node (node_of p).

(** [for i in range(n)], collecting what each iteration appends. *)
Fixpoint for_range {A : Type} (n : nat) (i : Z) (body : Z -> M (list A)) : M (list A) :=
  match n with
  | O => ret []
  | S n' => xs <- body i ;; ys <- for_range n' (i + 1)%Z body ;; ret (xs ++ ys)%list
  end.

Definition range {A : Type} (n : Z) (body : Z -> M (list A)) : M (list A) :=
  for_range (Z.to_nat n) 0%Z body.

Inductive exn : Type :=
| ValueError
| ZeroDivisionError
| OverflowError
| SystemExit (msg : string).

Inductive result (A : Type) : Type :=
| Ok (a : A)
| Raise (e : exn).
Arguments Ok {A} a.
Arguments Raise {A} e.

Section Scene.

(** [math.cos] and [math.sin]. *)
Variables cos sin : Q -> Q.

(** The body of the inner grid loop: [None] when the cell is skipped. *)
Definition grid_cell (cell : Q) (gy gx : Z) : M (option part) :=
  p <- rand01 ;;
  if Float.ltb p (lit 0.15) then ret None else
  let x0 := Float.of_int gx *! cell in
  let y0 := Float.of_int gy *! cell in
  jx <- rand01 ;;
  let cx := x0 +! cell *! (lit 0.5 +! (jx -! lit 0.5) *! lit 0.5) in
  jy <- rand01 ;;
  let cy := y0 +! cell *! (lit 0.5 +! (jy -! lit 0.5) *! lit 0.5) in
  col <- rgb true ;;
  a <- rand01 ;;
  let alpha := lit 0.25 +! a *! lit 0.65 in
  k <- next_u32 ;;
  if (k mod 2 =? 0)%Z then
    rw <- rand01 ;;
    let w := cell *! (lit 0.25 +! rw *! lit 0.7) in
    rh <- rand01 ;;
    let h := cell *! (lit 0.25 +! rh *! lit 0.7) in
    ret (Some (GridRect (cx -! w /! Float.of_int 2) (cy -! h /! Float.of_int 2) w h col alpha))
  else
    rr <- rand01 ;;
    let r := cell *! (lit 0.12 +! rr *! lit 0.35) in
    ret (Some (GridCircle cx cy r col alpha)).

Definition grid (cell : Q) (cells : Z) : M (list part) :=
  range cells (fun gy =>
    range cells (fun gx =>
      o <- grid_cell cell gy gx ;;
      ret (match o with Some p => [p] | None => [] end))).

(** The indices [(gy, gx)] of the cells the grid loop does not skip, in the
    order of the loop: the cells whose body runs. *)
Definition grid_drawn (cell : Q) (cells : Z) : M (list (Z * Z)) :=
  range cells (fun gy =>
    range cells (fun gx =>
      o <- grid_cell cell gy gx ;;
      ret (match o with Some _ => [(gy, gx)] | None => [] end))).

Definition rays : Z := 40.

(** The body of the ray loop. *)
Definition ray (cx cy inner outer : Q) (i : Z) : M part :=
  j <- rand01 ;;
  let ang := (Float.of_int 2 *! math_pi *! Float.of_int i /! Float.of_int rays)
             +! (j -! lit 0.5) *! lit 0.12 in
  v <- rand01 ;;
  let r2 := outer *! (lit 0.8 +! lit 0.4 *! v) in
  let x1 := cx +! inner *! cos ang in
  let y1 := cy +! inner *! sin ang in
  let x2 := cx +! r2 *! cos ang in
  let y2 := cy +! r2 *! sin ang in
  col <- rgb true ;;
  k <- next_u32 ;;
  ret (Ray x1 y1 x2 y2 col (1 + k mod 4)).

Definition motif (size : Z) : M (list part) :=
  let cx := int_div size 2 in
  let cy := int_div size 2 in
  let inner := Float.of_int size *! lit 0.06 in
  let outer := Float.of_int size *! lit 0.32 in
  range rays (fun i => r <- ray cx cy inner outer i ;; ret [r]).

(** [parts], for a non-zero [cells]. *)
Definition scene (size cells : Z) : M (list part) :=
  bg <- rgb false ;;
  let cell := int_div size cells in
  shapes <- grid cell cells ;;
  lines <- motif size ;;
  let cx := int_div size 2 in
  let cy := int_div size 2 in
  col <- rgb true ;;
  ret ([SvgOpen size; Background size bg] ++ shapes ++ lines
       ++ [Anchor cx cy (Float.of_int size *! lit 0.03) col; SvgClose])%list.

(** The conversions of [int]s to floats that [build_svg] makes, each of
    which raises [OverflowError] when out of range: [size / cells];
    [gx * cell] and [gy * cell] in every cell that is not skipped;
    [size / 2]; [size * 0.06], [size * 0.32] and [size * 0.03].  The loop
    indices of the rays and the stroke widths are below 40. *)
Definition overflows (size cells : Z) (next : Gen) : bool :=
  negb (in_range (int_div size cells))
  || existsb (fun c : Z * Z =>
                negb (in_range (Float.of_int (snd c)))
                || negb (in_range (Float.of_int (fst c))))
             (fst (grid_drawn (int_div size cells) cells (snd (rgb false next))))
  || negb (in_range (int_div size 2))
  || negb (in_range (Float.of_int size)).

Definition build_svg (seed : string) (size cells : Z) : result string :=
  let next := make_rng seed in
  if negb (writable size) then Raise ValueError
  else if (cells =? 0)%Z then Raise ZeroDivisionError
  else if overflows size cells next then Raise OverflowError
  else
    let parts := fst (scene size cells next) in
    Ok (String.concat newline (map render parts) ++ newline).

End Scene.

(* ================================================================== *)
(** ** The command line entry point *)
(* ================================================================== *)

(** What [parse_args] returns. *)
Record Args : Type := mkArgs
  { arg_seed : string; arg_out : string; arg_size : Z; arg_cells : Z }.

(** The part of the outside world [main] touches: files by path (the most
    recent write first), directories made, lines printed. *)
Record World : Type := mkWorld
  { files : list (string * string); dirs : list string; stdout : list string }.

Section Main.

Variables cos sin : Q -> Q.

(** [str(Path(s))] and [str(Path(s).parent)]. *)
Variables path_str path_parent : string -> string.

Definition main (args : Args) (w : World) : option exn * World :=
  if (arg_size args <? 64)%Z then (Some (SystemExit "--size must be >= 64"), w)
  else if (arg_cells args <? 2)%Z then (Some (SystemExit "--cells must be >= 2"), w)
  else
    match build_svg cos sin (arg_seed args) (arg_size args) (arg_cells args) with
    | Raise e => (Some e, w)
    | Ok svg =>
        let out := path_str (arg_out args) in
        (None,
         {| files := (out, svg) :: files w;
            dirs := path_parent (arg_out args) :: dirs w;
            stdout := (stdout w ++ [("Wrote " ++ out ++ " (seed=" ++ arg_seed args ++ ")")%string])%list |})
    end.

End Main.

(* ================================================================== *)
(** * Vocabulary of the properties *)
(* ================================================================== *)

Local Close Scope string_scope.

Definition u32 (x : Z) : Prop := 0 <= x < 2 ^ 32.

Definition byte_val (b : Z) : Prop := 0 <= b < 256.

(** The step as the specification words it: each of the three xorshift
    steps is followed by a mask to 32 bits. *)
Definition xorshift_spec (s : Z) : Z :=
  let s1 := Z.land (Z.lxor s (Z.shiftl s 13)) MASK32 in
  let s2 := Z.land (Z.lxor s1 (Z.shiftr s1 17)) MASK32 in
  Z.land (Z.lxor s2 (Z.shiftl s2 5)) MASK32.

(** The channels [rgb] draws, before any lift. *)
Definition drawn_rgb (g : Gen) : Z * Z * Z := fst (rgb_channels false g).

(** [m] always makes exactly [n] calls of [next_u32]. *)
Definition uses {A : Type} (m : M A) (n : nat) : Prop :=
  forall g, snd (m g) = after_draws n g.

(** After [k0] earlier calls, [m] makes as many more as bring the total to
    [c] of its result. *)
Definition costs {A : Type} (k0 : nat) (m : M A) (c : A -> nat) : Prop :=
  forall g, exists d : nat, c (fst (m g)) = (k0 + d)%nat /\ snd (m g) = after_draws d g.

(** Draws made for a cell, by what the cell emitted: the skip check alone,
    or the skip check and the body of the shape.  A cell emits no other
    part. *)
Definition cell_draws (o : option part) : nat :=
  match o with
  | None => 1
  | Some (GridRect _ _ _ _ _ _) => 10
  | Some (GridCircle _ _ _ _ _) => 9
  | Some _ => 0
  end.

Definition is_rect (p : part) : bool :=
  match p with GridRect _ _ _ _ _ _ => true | _ => false end.

Definition is_circle (p : part) : bool :=
  match p with GridCircle _ _ _ _ _ => true | _ => false end.

Definition rects (l : list part) : nat := List.length (filter is_rect l).
Definition circles (l : list part) : nat := List.length (filter is_circle l).

(** Draws the grid phase makes from [g]. *)
Definition grid_draws (cell : Q) (cells : Z) (g : Gen) : nat :=
  draws (snd (grid cell cells g)) - draws g.

Definition grid_shape (p : part) : Prop := is_rect p = true \/ is_circle p = true.

(** Every result of [m] satisfies [P]. *)
Definition post {A : Type} (m : M A) (P : A -> Prop) : Prop :=
  forall g, P (fst (m g)).

(** The largest value [rand01] can return. *)
Definition rmax : Q := 4294967295 # 4294967296.

Local Open Scope Q_scope.

(** What the grid phase promises of a part it emits. *)
Definition grid_part_ok (cell : Q) (p : part) : Prop :=
  match p with
  | GridRect _ _ _ _ _ alpha =>
      lit 0.25 <= alpha <= lit 0.90 /\ (25 <= hundredths alpha <= 90)%Z
  | GridCircle _ _ r _ alpha =>
      (lit 0.25 <= alpha <= lit 0.90 /\ (25 <= hundredths alpha <= 90)%Z)
      /\ (exists k : Q, lit 0.12 <= k <= lit 0.47 /\ r = cell *! k)
      /\ (0 <= cell ->
          cell *! lit 0.12 <= r <= cell *! lit 0.47
          /\ (hundredths (cell *! lit 0.12) <= hundredths r
              <= hundredths (cell *! lit 0.47))%Z)
  | _ => True
  end.

(** A colour as [rgb] writes it. *)
Definition is_rgb_text (s : string) : Prop := exists c : Z * Z * Z, s = rgb_text c.

Definition fill_ok (p : part) : Prop :=
  match p with
  | GridRect _ _ _ _ fill _ | GridCircle _ _ _ fill _ => is_rgb_text fill
  | _ => True
  end.

(** The body of the inner loop of [grid]. *)
Definition grid_cell_parts (cell : Q) (gy gx : Z) : M (list part) :=
  o <- grid_cell cell gy gx ;;
  ret (match o with Some p => [p] | None => [] end).

Local Close Scope Q_scope.
Local Open Scope nat_scope.

(** The count the specification words: 10 or 9 draws for each emitted shape,
    and one more for every cell. *)
Definition grid_draws_as_worded (shapes : list part) (n : nat) : nat :=
  10 * rects shapes + 9 * circles shapes + 1 * (n * n).

(** The four quantities a ray draws, in the order it draws them. *)
Definition ray_jitter (g : Gen) : Q :=
  (fst (rand01 g) -! lit 0.5) *! lit 0.12.
Definition ray_length_factor (g : Gen) : Q :=
  lit 0.8 +! lit 0.4 *! fst (rand01 (after_draws 1 g)).
Definition ray_stroke (g : Gen) : string := fst (rgb true (after_draws 2 g)).
Definition ray_width (g : Gen) : Z := 1 + fst (next_u32 (after_draws 5 g)) mod 4.

Definition is_ray (p : part) : bool :=
  match p with Ray _ _ _ _ _ _ => true | _ => false end.

(** The value of an attribute of a node. *)
Fixpoint assoc (k : string) (l : list (string * string)) : option string :=
  match l with
  | [] => None
  | (k', v) :: l' => if String.eqb k k' then Some v else assoc k l'
  end.

Definition attr (k : string) (n : node) : option string := assoc k (attrs n).

Local Open Scope string_scope.

(** The nodes of the document [build_svg] writes, in order. *)
Definition document (cos sin : Q -> Q) (seed : string) (size cells : Z) : list node :=
  map node_of (fst (scene cos sin size cells (make_rng seed))).

Definition is_digit (c : ascii) : bool :=
  (48 <=? N_of_ascii c)%N && (N_of_ascii c <=? 57)%N.

Fixpoint all_digits (s : string) : bool :=
  match s with
  | EmptyString => true
  | String c r => is_digit c && all_digits r
  end.

Fixpoint drop_digits (s : string) : string :=
  match s with
  | EmptyString => EmptyString
  | String c r => if is_digit c then drop_digits r else s
  end.

Definition starts_with_digit (s : string) : bool :=
  match s with String c _ => is_digit c | EmptyString => false end.

Definition unsigned (s : string) : string :=
  match s with
  | String c r => if Ascii.eqb c "-" then r else s
  | EmptyString => s
  end.

(** [s] reads as a decimal number: a sign or none, digits, and possibly a
    point and more digits. *)
Definition is_numeral (s : string) : bool :=
  let u := unsigned s in
  starts_with_digit u
  && match drop_digits u with
     | EmptyString => true
     | String c r => Ascii.eqb c "." && starts_with_digit r && String.eqb (drop_digits r) ""
     end.

(** [s] is a decimal number with exactly two digits after the point. *)
Definition two_decimals (s : string) : bool :=
  let u := unsigned s in
  starts_with_digit u
  && match drop_digits u with
     | String c (String a (String b EmptyString)) =>
         Ascii.eqb c "." && is_digit a && is_digit b
     | _ => false
     end.

(** The claim as worded: whatever attribute value reads as a number has two
    decimals. *)
Definition numbers_two_decimal (doc : list node) : Prop :=
  forall (n : node) (k v : string),
    In n doc -> In (k, v) (attrs n) -> is_numeral v = true -> two_decimals v = true.

(** How the composer writes the value of an attribute: through [f], as
    the integer given for the canvas size, through [rgb], or as a fixed
    text of the template. *)
Inductive written : Type :=
| TwoDecimals
| CanvasSize
| Colour
| Literal (s : string).

(** The amended claim: the attributes of each kind of part, in order, and
    how the value of each is written. *)
Definition attrs_as_amended (p : part) : list (string * written) :=
  match p with
  | SvgOpen _ =>
      [("xmlns", Literal "https://www.w3.org/TR/SVG2/");
       ("width", CanvasSize); ("height", CanvasSize)]
  | Background _ _ =>
      [("width", CanvasSize); ("height", CanvasSize); ("fill", Colour)]
  | GridRect _ _ _ _ _ _ =>
      [("x", TwoDecimals); ("y", TwoDecimals); ("width", TwoDecimals);
       ("height", TwoDecimals); ("fill", Colour); ("fill-opacity", TwoDecimals)]
  | GridCircle _ _ _ _ _ =>
      [("cx", TwoDecimals); ("cy", TwoDecimals); ("r", TwoDecimals);
       ("fill", Colour); ("fill-opacity", TwoDecimals)]
  | Ray _ _ _ _ _ _ =>
      [("x1", TwoDecimals); ("y1", TwoDecimals); ("x2", TwoDecimals);
       ("y2", TwoDecimals); ("stroke", Colour); ("stroke-width", TwoDecimals);
       ("stroke-opacity", Literal "0.8"); ("stroke-linecap", Literal "round")]
  | Anchor _ _ _ _ =>
      [("cx", TwoDecimals); ("cy", TwoDecimals); ("r", TwoDecimals); ("fill", Colour)]
  | SvgClose => []
  end.

(** What each way of writing gives: a number with two decimals; the
    decimal digits of the canvas size, a number without decimals; a colour,
    which is no number; the fixed text. *)
Definition written_as (size : Z) (w : written) (v : string) : Prop :=
  match w with
  | TwoDecimals => (exists x : Q, v = f x) /\ is_numeral v = true /\ two_decimals v = true
  | CanvasSize => v = str size /\ is_numeral v = true /\ two_decimals v = false
  | Colour => is_rgb_text v /\ is_numeral v = false
  | Literal s => v = s
  end.

(** The attributes of the part are the ones the amended claim lists, each
    written as it says. *)
Definition part_as_amended (size : Z) (p : part) : Prop :=
  Forall2 (fun (kv : string * string) (kw : string * written) =>
             fst kv = fst kw /\ written_as size (snd kw) (snd kv))
          (attrs (node_of p)) (attrs_as_amended p).

Local Close Scope string_scope.
Local Close Scope nat_scope.

(* ================================================================== *)
(** ** Vocabulary of the further properties *)
(* ================================================================== *)

(** The largest skip-check draw that skips the cell: the float [0.15] lies
    between this over [2^32] and the next. *)
Definition skip_max : Z := 644245094.

Local Open Scope Q_scope.

(** A point within the middle half of cell [gy], [gx]. *)
Definition in_middle_half (cell : Q) (gy gx : Z) (cx cy : Q) : Prop :=
  (Float.of_int gx *! cell +! cell *! lit 0.25 <= cx
   <= Float.of_int gx *! cell +! cell *! lit 0.75)
  /\ (Float.of_int gy *! cell +! cell *! lit 0.25 <= cy
      <= Float.of_int gy *! cell +! cell *! lit 0.75).

(** Where the shape of cell [gy], [gx] lies: the centre of a circle within
    the middle half of the cell; a rectangle with sides between 25% and 95%
    of the cell, its corner half a side up and left of such a centre. *)
Definition placed_in_cell (cell : Q) (gy gx : Z) (p : part) : Prop :=
  match p with
  | GridCircle cx cy _ _ _ => in_middle_half cell gy gx cx cy
  | GridRect x y w h _ _ =>
      (cell *! lit 0.25 <= w <= cell *! lit 0.95)
      /\ (cell *! lit 0.25 <= h <= cell *! lit 0.95)
      /\ exists cx cy : Q,
           in_middle_half cell gy gx cx cy
           /\ x = cx -! w /! Float.of_int 2 /\ y = cy -! h /! Float.of_int 2
  | _ => False
  end.

(** Where the ends of a ray line lie on a canvas of [size] pixels: the
    near end within an eighth of the canvas of its centre along each axis,
    the far end at least a thirty-second of the canvas inside its border. *)
Definition ray_within (size : Z) (p : part) : Prop :=
  match p with
  | Ray x1 y1 x2 y2 _ _ =>
      let s := inject_Z size in
      (s * (3 # 8) <= x1 <= s * (5 # 8) /\ s * (3 # 8) <= y1 <= s * (5 # 8))
      /\ (s * (1 # 32) <= x2 <= s * (31 # 32) /\ s * (1 # 32) <= y2 <= s * (31 # 32))
  | _ => False
  end.

Local Close Scope Q_scope.

Definition is_anchor (p : part) : bool :=
  match p with Anchor _ _ _ _ => true | _ => false end.


Local Open Scope string_scope.


(** The values of a Python [float]: the finite ones other than negative
    zero, which the arithmetic of the composer stays within, and the rest. *)
Inductive pyfloat : Type :=
| Finite (x : Q)
| NegZero
| Infinity (negative : bool)
| NaN.

(** [f] on every float: [format(x, ".2f")] writes a negative zero with its
    sign, and an infinity or a NaN as a word. *)
Definition f_float (v : pyfloat) : string :=
  match v with
  | Finite x => f x
  | NegZero => "-0.00"
  | Infinity false => "inf"
  | Infinity true => "-inf"
  | NaN => "nan"
  end.

(** Reading the text of a decimal integer. *)
Definition read_int (s : string) : option Z :=
  option_map Z.of_int (NilZero.int_of_string s).

(** The text before the first point, and the text after it. *)
Fixpoint split_dot (s : string) : option (string * string) :=
  match s with
  | EmptyString => None
  | String c r =>
      if Ascii.eqb c "." then Some (EmptyString, r)
      else match split_dot r with
           | Some (a, b) => Some (String c a, b)
           | None => None
           end
  end.

Definition digit_val (c : ascii) : Z := Z.of_N (N_of_ascii c) - 48.

(** Reading a number written with two decimals: whether it carries a sign,
    and its magnitude in hundredths. *)
Definition read_f (s : string) : option (bool * Z) :=
  let neg := match s with String c _ => Ascii.eqb c "-" | EmptyString => false end in
  match split_dot (unsigned s) with
  | Some (ip, String a (String b EmptyString)) =>
      match read_int ip with
      | Some i =>
          if is_digit a && is_digit b
          then Some (neg, i * 100 + digit_val a * 10 + digit_val b)
          else None
      | None => None
      end
  | _ => None
  end.

Local Close Scope string_scope.

(** The rational model of binary64 against the kernel's floats, on the
    literals of the source and on sums, differences, products and quotients
    of any two of them. *)
Module Binary64.

#[local] Set Warnings "-inexact-float".

Definition value (x : float) : option Q :=
  match Prim2SF x with
  | S754_zero _ => Some 0%Q
  | S754_finite s m e => Some (Qred ((if s then -1 else 1) * inject_Z (Zpos m) * 2 ^ e))%Q
  | _ => None
  end.

Definition literals : list (float * Q) :=
  [ (0.15, 0.15%Q); (0.5, 0.5%Q); (0.25, 0.25%Q); (0.65, 0.65%Q); (0.7, 0.7%Q);
    (0.12, 0.12%Q); (0.35, 0.35%Q); (0.06, 0.06%Q); (0.32, 0.32%Q); (0.8, 0.8%Q);
    (0.4, 0.4%Q); (0.03, 0.03%Q); (0.90, 0.90%Q); (0.47, 0.47%Q); (1.2, 1.2%Q) ]%float.

Definition same (x : option Q) (q : Q) : bool :=
  match x with Some v => Qeq_bool v q | None => false end.

Definition agree (op : float -> float -> float) (qop : Q -> Q -> Q) : bool :=
  forallb (fun a =>
    forallb (fun b =>
      same (value (op (fst a) (fst b))) (qop (lit (snd a)) (lit (snd b)))) literals)
    literals.

End Binary64.

(* ================================================================== *)
(** * Properties of the generator *)
(* ================================================================== *)

Lemma land_MASK32 (x : Z) : Z.land x MASK32 = x mod 2 ^ 32.
Proof. change MASK32 with (Z.ones 32). apply Z.land_ones. lia. Qed.

Lemma lxor_u32 (a b : Z) : u32 a -> u32 b -> u32 (Z.lxor a b).
Proof.
  unfold u32. intros [Ha Ha'] [Hb Hb'].
  assert (H0 : 0 <= Z.lxor a b) by (apply Z.lxor_nonneg; tauto).
  split; [exact H0|].
  destruct (Z.eq_dec (Z.lxor a b) 0) as [E|E]; [rewrite E; lia|].
  apply Z.log2_lt_pow2; [lia|].
  eapply Z.le_lt_trans; [apply Z.log2_lxor; assumption|].
  apply Z.max_lub_lt.
  - destruct (Z.eq_dec a 0) as [->|]; [simpl; lia|]. apply Z.log2_lt_pow2; lia.
  - destruct (Z.eq_dec b 0) as [->|]; [simpl; lia|]. apply Z.log2_lt_pow2; lia.
Qed.

Lemma shl_mask_u32 (s k : Z) : u32 (Z.land (Z.shiftl s k) MASK32).
Proof. rewrite land_MASK32. unfold u32. apply Z.mod_pos_bound. lia. Qed.

Lemma shr_u32 (s k : Z) : 0 <= k -> u32 s -> u32 (Z.shiftr s k).
Proof.
  unfold u32. intros Hk [H0 H1]. rewrite Z.shiftr_div_pow2 by assumption.
  assert (0 < 2 ^ k) by (apply Z.pow_pos_nonneg; lia).
  split; [apply Z.div_pos; lia|].
  eapply Z.le_lt_trans; [|exact H1].
  apply Z.div_le_upper_bound; [lia|]. nia.
Qed.

(** A left-shift xorshift step has no fixed point but zero, [2^k - 1]
    being odd. *)
Lemma shl_step_nonzero (s k : Z) :
  0 < k -> Z.gcd (2 ^ 32) (2 ^ k - 1) = 1 ->
  u32 s -> s <> 0 -> Z.lxor s (Z.land (Z.shiftl s k) MASK32) <> 0.
Proof.
  intros Hk Hodd [H0 H1] Hs E. apply Z.lxor_eq in E.
  rewrite land_MASK32, Z.shiftl_mul_pow2 in E by lia.
  assert (Hd : (2 ^ 32 | (2 ^ k - 1) * s)).
  { exists ((s * 2 ^ k) / 2 ^ 32).
    pose proof (Z.div_mod (s * 2 ^ k) (2 ^ 32) ltac:(lia)) as D. lia. }
  apply Z.gauss in Hd; [|exact Hodd].
  destruct Hd as [q Hq]. nia.
Qed.

Lemma shr_step_nonzero (s k : Z) :
  0 < k -> u32 s -> s <> 0 -> Z.lxor s (Z.shiftr s k) <> 0.
Proof.
  intros Hk [H0 H1] Hs E. apply Z.lxor_eq in E.
  rewrite Z.shiftr_div_pow2 in E by lia.
  assert (1 < 2 ^ k) by (apply Z.pow_gt_1; lia).
  assert (s / 2 ^ k < s) by (apply Z.div_lt; lia). lia.
Qed.

Lemma shl_step_u32 (s k : Z) :
  u32 s -> u32 (Z.lxor s (Z.land (Z.shiftl s k) MASK32)).
Proof. intros Hs. apply lxor_u32; [exact Hs | apply shl_mask_u32]. Qed.

Lemma shr_step_u32 (s k : Z) : 0 <= k -> u32 s -> u32 (Z.lxor s (Z.shiftr s k)).
Proof. intros Hk Hs. apply lxor_u32; [exact Hs | apply shr_u32; assumption]. Qed.

Lemma xorshift_u32 (s : Z) : u32 s -> u32 (xorshift s).
Proof.
  intros Hs. unfold xorshift. rewrite land_MASK32.
  assert (H1 := shl_step_u32 s 13 Hs).
  assert (H2 := shr_step_u32 _ 17 ltac:(lia) H1).
  assert (H3 := shl_step_u32 _ 5 H2).
  rewrite Z.mod_small by exact H3. exact H3.
Qed.

Lemma xorshift_nonzero (s : Z) : u32 s -> s <> 0 -> xorshift s <> 0.
Proof.
  intros Hs Hn. unfold xorshift. rewrite land_MASK32.
  assert (H1 := shl_step_u32 s 13 Hs).
  assert (N1 := shl_step_nonzero s 13 ltac:(lia) eq_refl Hs Hn).
  assert (H2 := shr_step_u32 _ 17 ltac:(lia) H1).
  assert (N2 := shr_step_nonzero _ 17 ltac:(lia) H1 N1).
  assert (H3 := shl_step_u32 _ 5 H2).
  assert (N3 := shl_step_nonzero _ 5 ltac:(lia) eq_refl H2 N2).
  rewrite Z.mod_small by exact H3. exact N3.
Qed.

Lemma be_bytes_bytes (n : nat) (x : Z) : Forall byte_val (Sha256.be_bytes n x).
Proof.
  unfold Sha256.be_bytes. apply Forall_forall. intros b Hb.
  apply in_map_iff in Hb. destruct Hb as (i & <- & _).
  unfold byte_val. apply Z.mod_pos_bound. lia.
Qed.

Lemma digest_bytes (msg : list Z) : Forall byte_val (Sha256.digest msg).
Proof.
  unfold Sha256.digest. apply Forall_forall. intros b Hb.
  apply in_flat_map in Hb. destruct Hb as (w & _ & Hb).
  pose proof (be_bytes_bytes 4 w) as F. rewrite Forall_forall in F. auto.
Qed.

Lemma from_bytes_big_bound (bs : list Z) (acc : Z) (k : nat) :
  Forall byte_val bs -> 0 <= acc < 256 ^ Z.of_nat k ->
  0 <= fold_left (fun a b => a * 256 + b) bs acc < 256 ^ Z.of_nat (k + List.length bs).
Proof.
  intros F. revert acc k. induction F as [|b bs Hb F IH]; intros acc k Hacc.
  - simpl. rewrite Nat.add_0_r. exact Hacc.
  - simpl fold_left. simpl List.length.
    replace (k + S (List.length bs))%nat with (S k + List.length bs)%nat by lia.
    apply IH. rewrite Nat2Z.inj_succ, Z.pow_succ_r by lia.
    unfold byte_val in Hb. lia.
Qed.

Lemma seed_word_u32 (bs : list Z) :
  Forall byte_val bs -> u32 (from_bytes_big (firstn 4 bs)).
Proof.
  intros F. unfold from_bytes_big, u32.
  assert (F4 : Forall byte_val (firstn 4 bs)).
  { rewrite <- (firstn_skipn 4 bs) in F. apply Forall_app in F. tauto. }
  pose proof (from_bytes_big_bound (firstn 4 bs) 0 0 F4 ltac:(simpl; lia)) as B.
  pose proof (firstn_le_length 4 bs) as L.
  assert (256 ^ Z.of_nat (0 + List.length (firstn 4 bs)) <= 256 ^ 4).
  { apply Z.pow_le_mono_r; lia. }
  change (2 ^ 32) with (256 ^ 4). lia.
Qed.

Lemma make_rng_state (seed : string) :
  u32 (state (make_rng seed)) /\ state (make_rng seed) <> 0.
Proof.
  unfold make_rng. cbn [state].
  pose proof (seed_word_u32 _ (digest_bytes (encode_utf8 seed))) as U.
  destruct (Z.eqb_spec (from_bytes_big (firstn 4 (Sha256.digest (encode_utf8 seed)))) 0) as [E|E].
  - split; [unfold u32; lia | lia].
  - split; assumption.
Qed.

Lemma after_draws_S (n : nat) (g : Gen) :
  after_draws (S n) g = snd (next_u32 (after_draws n g)).
Proof. reflexivity. Qed.

Lemma after_draws_state (n : nat) (g : Gen) :
  u32 (state g) -> state g <> 0 ->
  u32 (state (after_draws n g)) /\ state (after_draws n g) <> 0.
Proof.
  intros U N. induction n as [|n [IU IN]].
  - split; assumption.
  - rewrite after_draws_S. cbn [next_u32 snd state].
    split; [apply xorshift_u32 | apply xorshift_nonzero]; assumption.
Qed.

(** C2. For every seed text the generator state starts as the first four
    digest bytes read as a big-endian integer, with 0 replaced by 1; it is a
    non-zero 32-bit value then and after any number of calls of
    [next_u32]. *)
Theorem state_never_zero (seed : string) (n : nat) :
  state (make_rng seed)
  = (let v := from_bytes_big (firstn 4 (Sha256.digest (encode_utf8 seed))) in
     if v =? 0 then 1 else v)
  /\ u32 (state (after_draws n (make_rng seed)))
  /\ state (after_draws n (make_rng seed)) <> 0.
Proof.
  split; [reflexivity|].
  destruct (make_rng_state seed) as [U N].
  apply after_draws_state; assumption.
Qed.

Lemma land_lxor_distr (a b m : Z) :
  Z.land (Z.lxor a b) m = Z.lxor (Z.land a m) (Z.land b m).
Proof.
  apply Z.bits_inj'. intros i Hi.
  rewrite Z.land_spec, !Z.lxor_spec, !Z.land_spec.
  destruct (Z.testbit a i), (Z.testbit b i), (Z.testbit m i); reflexivity.
Qed.

Lemma mask_shl_step (s k : Z) :
  u32 s ->
  Z.land (Z.lxor s (Z.shiftl s k)) MASK32 = Z.lxor s (Z.land (Z.shiftl s k) MASK32).
Proof.
  intros Hs. rewrite land_lxor_distr. f_equal.
  rewrite land_MASK32. apply Z.mod_small. exact Hs.
Qed.

Lemma xorshift_refines_spec (s : Z) : u32 s -> xorshift s = xorshift_spec s.
Proof.
  intros Hs. unfold xorshift, xorshift_spec. cbv zeta.
  rewrite (mask_shl_step s 13 Hs).
  assert (H1 := shl_step_u32 s 13 Hs).
  assert (H2 := shr_step_u32 _ 17 ltac:(lia) H1).
  rewrite (land_MASK32 (Z.lxor _ (Z.shiftr _ 17))), (Z.mod_small _ _ H2).
  rewrite (mask_shl_step _ 5 H2).
  assert (H3 := shl_step_u32 _ 5 H2).
  rewrite land_MASK32, (Z.mod_small _ _ H3). reflexivity.
Qed.

(** C8. On a 32-bit state, a call of [next_u32] applies the three xorshift
    steps (left 13, right 17, left 5), each masked to 32 bits, stores the
    result as the new state and returns it. *)
Theorem next_u32_xorshift (g : Gen) (H : u32 (state g)) :
  fst (next_u32 g) = xorshift_spec (state g)
  /\ state (snd (next_u32 g)) = fst (next_u32 g)
  /\ u32 (fst (next_u32 g)).
Proof.
  cbn [next_u32 fst snd state]. split; [|split].
  - apply xorshift_refines_spec. exact H.
  - reflexivity.
  - apply xorshift_u32. exact H.
Qed.

Lemma next_u32_xorshift_witness :
  u32 (state (mkGen 2463534242 0))
  /\ fst (next_u32 (mkGen 2463534242 0)) = 723471715.
Proof.
  assert (U : u32 (state (mkGen 2463534242 0))) by (unfold u32; simpl; lia).
  split; [exact U|].
  destruct (next_u32_xorshift (mkGen 2463534242 0) U) as [E _].
  rewrite E. vm_compute. reflexivity.
Defined.

(* ================================================================== *)
(** * Properties of the arithmetic: rounding is monotone *)
(* ================================================================== *)

Module FloatFacts.

Import Float.
Local Open Scope Q_scope.

Lemma two_neq_0 : ~ 2 == 0. Proof. discriminate. Qed.

Lemma pow2_pos (e : Z) : 0 < 2 ^ e.
Proof. apply Qpower_0_lt. reflexivity. Qed.

Lemma pow2_add (a b : Z) : 2 ^ (a + b) == 2 ^ a * 2 ^ b.
Proof. apply Qpower_plus. exact two_neq_0. Qed.

Lemma pow2_le (a b : Z) : (a <= b)%Z -> 2 ^ a <= 2 ^ b.
Proof. intros H. apply Qpower_le_compat_l; [exact H | discriminate]. Qed.

Lemma pow2_lt_inv (a b : Z) : 2 ^ a < 2 ^ b -> (a < b)%Z.
Proof. intros H. eapply Qpower_lt_compat_l_inv; [exact H | reflexivity]. Qed.

Lemma pow2_Z (n : Z) : (0 <= n)%Z -> 2 ^ n == inject_Z (2 ^ n).
Proof. intros H. symmetry. apply (Zpower_Qpower 2 n H). Qed.

(** ** [rne] *)

Lemma rne_floor (q : Q) : (Qfloor q <= rne q <= Qfloor q + 1)%Z.
Proof.
  unfold rne. destruct (Qcompare _ _); [destruct (Z.even _)| |]; lia.
Qed.

Lemma rne_Z (z : Z) : rne (inject_Z z) = z.
Proof.
  unfold rne. rewrite Qfloor_Z.
  destruct (Qcompare_spec (inject_Z z - inject_Z z) (1 # 2)) as [A|A|A];
    [exfalso; lra | reflexivity | exfalso; lra].
Qed.

Lemma rne_mono (a b : Q) : a <= b -> (rne a <= rne b)%Z.
Proof.
  intros H. pose proof (Qfloor_resp_le _ _ H) as F.
  pose proof (rne_floor a) as Ra. pose proof (rne_floor b) as Rb.
  destruct (Z.eq_dec (Qfloor a) (Qfloor b)) as [E|E]; [|lia].
  unfold rne in *. rewrite <- E in *.
  set (fa := Qfloor a) in *.
  assert (D : a - inject_Z fa <= b - inject_Z fa) by lra.
  destruct (Qcompare_spec (a - inject_Z fa) (1 # 2)) as [A|A|A];
  destruct (Qcompare_spec (b - inject_Z fa) (1 # 2)) as [B|B|B];
  try destruct (Z.even fa); try lia; exfalso; lra.
Qed.

Lemma rne_le_Z (q : Q) (n : Z) : q <= inject_Z n -> (rne q <= n)%Z.
Proof. intros H. rewrite <- (rne_Z n). apply rne_mono. exact H. Qed.

Lemma rne_ge_Z (q : Q) (n : Z) : inject_Z n <= q -> (n <= rne q)%Z.
Proof. intros H. rewrite <- (rne_Z n). apply rne_mono. exact H. Qed.

(** ** [ilog2] *)

Lemma ilog2_spec (q : Q) : 0 < q -> 2 ^ ilog2 q <= q /\ q < 2 ^ (ilog2 q + 1).
Proof.
  intros Hq. destruct q as [n d].
  assert (Hn : (0 < n)%Z) by (unfold Qlt in Hq; simpl in Hq; lia).
  unfold ilog2. cbn [Qnum Qden].
  set (a := Z.log2 n). set (b := Z.log2 (Zpos d)).
  assert (Ha : (0 <= a)%Z) by apply Z.log2_nonneg.
  assert (Hb : (0 <= b)%Z) by apply Z.log2_nonneg.
  destruct (Z.log2_spec n Hn) as [A1 A2]. fold a in A1, A2.
  destruct (Z.log2_spec (Zpos d) ltac:(lia)) as [B1 B2]. fold b in B1, B2.
  rewrite <- Z.add_1_r in A2, B2.
  set (N := inject_Z n). set (D := inject_Z (Zpos d)).
  assert (QN : (n # d) * D == N).
  { rewrite Qmake_Qdiv. fold N D. field. unfold D. discriminate. }
  assert (HD : 0 < D) by (unfold D, Qlt; simpl; lia).
  (* the integer bounds, in Q *)
  assert (A1q : 2 ^ a <= N) by (rewrite pow2_Z by lia; unfold N; rewrite <- Zle_Qle; exact A1).
  assert (A2q : N < 2 * 2 ^ a).
  { setoid_replace (2 * 2 ^ a) with (2 ^ (a + 1)).
    - rewrite pow2_Z by lia. unfold N. rewrite <- Zlt_Qlt. exact A2.
    - rewrite pow2_add. change (2 ^ 1) with 2. ring. }
  assert (B1q : 2 ^ b <= D) by (rewrite pow2_Z by lia; unfold D; rewrite <- Zle_Qle; exact B1).
  assert (B2q : D < 2 * 2 ^ b).
  { setoid_replace (2 * 2 ^ b) with (2 ^ (b + 1)).
    - rewrite pow2_Z by lia. unfold D. rewrite <- Zlt_Qlt. exact B2.
    - rewrite pow2_add. change (2 ^ 1) with 2. ring. }
  set (e0 := (a - b)%Z).
  assert (P : 2 ^ e0 * 2 ^ b == 2 ^ a).
  { rewrite <- pow2_add. unfold e0. replace (a - b + b)%Z with a by ring. reflexivity. }
  pose proof (pow2_pos e0) as Pe. pose proof (pow2_pos b) as Pb.
  pose proof (pow2_pos (e0 - 1)) as Pm.
  assert (P1 : 2 ^ (e0 + 1) == 2 * 2 ^ e0).
  { rewrite pow2_add. change (2 ^ 1) with 2. ring. }
  assert (P2 : 2 * 2 ^ (e0 - 1) == 2 ^ e0).
  { replace e0 with (e0 - 1 + 1)%Z at 2 by ring. rewrite pow2_add.
    change (2 ^ 1) with 2. ring. }
  destruct (Qle_bool (2 ^ e0) (n # d)) eqn:T.
  - apply Qle_bool_iff in T. split; [exact T|].
    rewrite P1. apply Qnot_le_lt. intros C.
    assert (2 * 2 ^ e0 * D <= (n # d) * D) by (apply Qmult_le_compat_r; lra).
    assert (2 ^ e0 * 2 ^ b <= 2 ^ e0 * D) by (apply Qmult_le_l; lra).
    lra.
  - assert (T' : (n # d) < 2 ^ e0).
    { apply Qnot_le_lt. intros C. apply Qle_bool_iff in C. congruence. }
    replace (e0 - 1 + 1)%Z with e0 by ring. split; [|exact T'].
    apply Qnot_lt_le. intros C.
    assert ((n # d) * D < 2 ^ (e0 - 1) * D) by (apply Qmult_lt_compat_r; lra).
    assert (2 ^ (e0 - 1) * D < 2 ^ (e0 - 1) * (2 * 2 ^ b)) by (apply Qmult_lt_l; lra).
    assert (2 ^ (e0 - 1) * (2 * 2 ^ b) == 2 ^ a).
    { rewrite <- P, <- P2. ring. }
    lra.
Qed.

Lemma ilog2_mono (a b : Q) : 0 < a -> a <= b -> (ilog2 a <= ilog2 b)%Z.
Proof.
  intros Ha Hab.
  destruct (ilog2_spec a Ha) as [A _].
  destruct (ilog2_spec b ltac:(lra)) as [_ B].
  assert (L : 2 ^ ilog2 a < 2 ^ (ilog2 b + 1)) by lra.
  apply pow2_lt_inv in L. lia.
Qed.

(** ** Rounding is monotone *)

Lemma round_pos_eq (q : Q) :
  round_pos q == inject_Z (rne (q / 2 ^ ulp_exp q)) * 2 ^ ulp_exp q.
Proof. unfold round_pos. apply Qred_correct. Qed.

Lemma div_pow2_le (a b : Q) (e : Z) : a <= b -> a / 2 ^ e <= b / 2 ^ e.
Proof.
  intros H. unfold Qdiv. apply Qmult_le_compat_r; [exact H|].
  apply Qlt_le_weak, Qinv_lt_0_compat, pow2_pos.
Qed.

Lemma round_pos_nonneg (q : Q) : 0 < q -> 0 <= round_pos q.
Proof.
  intros Hq. rewrite round_pos_eq.
  apply Qmult_le_0_compat; [|apply Qlt_le_weak, pow2_pos].
  change 0 with (inject_Z 0). rewrite <- Zle_Qle. apply rne_ge_Z.
  apply Qle_shift_div_l; [apply pow2_pos|].
  change (inject_Z 0) with 0. rewrite Qmult_0_l. lra.
Qed.

Lemma round_pos_mono (a b : Q) : 0 < a -> a <= b -> round_pos a <= round_pos b.
Proof.
  intros Ha Hab. assert (Hb : 0 < b) by lra.
  rewrite !round_pos_eq.
  pose proof (ilog2_mono a b Ha Hab) as L.
  assert (E : (ulp_exp a <= ulp_exp b)%Z) by (unfold ulp_exp; lia).
  destruct (Z.eq_dec (ulp_exp a) (ulp_exp b)) as [Eq|Ne].
  - rewrite Eq. apply Qmult_le_compat_r; [|apply Qlt_le_weak, pow2_pos].
    rewrite <- Zle_Qle. apply rne_mono, div_pow2_le, Hab.
  - assert (Lt : (ulp_exp a + 1 <= ulp_exp b)%Z) by lia.
    set (ea := ulp_exp a) in *. set (eb := ulp_exp b) in *.
    pose proof (pow2_pos ea) as Pa. pose proof (pow2_pos eb) as Pb.
    destruct (ilog2_spec a Ha) as [_ A]. destruct (ilog2_spec b Hb) as [B _].
    (* the significand of [a] is at most 2^53 *)
    assert (Ma : (rne (a / 2 ^ ea) <= 2 ^ 53)%Z).
    { apply rne_le_Z. apply Qle_shift_div_r; [exact Pa|].
      rewrite <- pow2_Z by lia. rewrite <- pow2_add.
      apply Qlt_le_weak. eapply Qlt_le_trans; [exact A|].
      apply pow2_le. unfold ea, ulp_exp. lia. }
    (* the significand of [b] is at least 2^52 *)
    assert (Mb : (2 ^ 52 <= rne (b / 2 ^ eb))%Z).
    { apply rne_ge_Z. apply Qle_shift_div_l; [exact Pb|].
      rewrite <- pow2_Z by lia. rewrite <- pow2_add.
      eapply Qle_trans; [|exact B].
      apply pow2_le. unfold eb, ulp_exp, emin in *. lia. }
    apply (Qle_trans _ (inject_Z (2 ^ 53) * 2 ^ ea)).
    { apply Qmult_le_compat_r; [|lra]. rewrite <- Zle_Qle. exact Ma. }
    apply (Qle_trans _ (inject_Z (2 ^ 52) * 2 ^ eb)).
    { rewrite <- !pow2_Z by lia. rewrite <- !pow2_add. apply pow2_le. lia. }
    apply Qmult_le_compat_r; [|lra]. rewrite <- Zle_Qle. exact Mb.
Qed.

Lemma fl_mono (a b : Q) : a <= b -> fl a <= fl b.
Proof.
  intros H. unfold fl.
  destruct a as [[|na|na] da], b as [[|nb|nb] db]; cbn [Qnum];
    try (exfalso; unfold Qle in H; simpl in H; lia).
  - lra.
  - apply round_pos_nonneg. reflexivity.
  - apply round_pos_mono; [reflexivity | exact H].
  - assert (0 <= round_pos (- (Z.neg na # da))) by (apply round_pos_nonneg; reflexivity). lra.
  - assert (0 <= round_pos (- (Z.neg na # da))) by (apply round_pos_nonneg; reflexivity).
    assert (0 <= round_pos (Z.pos nb # db)) by (apply round_pos_nonneg; reflexivity). lra.
  - apply Qopp_le_compat. apply round_pos_mono; [reflexivity|].
    apply Qopp_le_compat. exact H.
Qed.

Lemma add_le (a a' b b' : Q) : a <= a' -> b <= b' -> add a b <= add a' b'.
Proof. intros. apply fl_mono. lra. Qed.

Lemma sub_le (a a' b b' : Q) : a <= a' -> b' <= b -> sub a b <= sub a' b'.
Proof. intros. apply fl_mono. lra. Qed.

Lemma mul_le_r (a b c : Q) : 0 <= c -> a <= b -> mul a c <= mul b c.
Proof. intros. apply fl_mono. apply Qmult_le_compat_r; assumption. Qed.

Lemma mul_le_l (a b c : Q) : 0 <= c -> a <= b -> mul c a <= mul c b.
Proof. intros. apply fl_mono. rewrite !(Qmult_comm c). apply Qmult_le_compat_r; assumption. Qed.

Lemma div_le (a b c : Q) : 0 < c -> a <= b -> div a c <= div b c.
Proof.
  intros Hc H. apply fl_mono. unfold Qdiv. apply Qmult_le_compat_r; [exact H|].
  apply Qlt_le_weak, Qinv_lt_0_compat, Hc.
Qed.

End FloatFacts.

(* ================================================================== *)
(** * Properties of the arithmetic: rounding leaves binary64 values alone *)
(* ================================================================== *)

Module FloatExact.

Import Float FloatFacts.
Local Open Scope Q_scope.

Lemma fl_pos (q : Q) : 0 < q -> fl q = round_pos q.
Proof.
  intros H. unfold fl. destruct q as [[|n|n] d]; cbn [Qnum];
    [exfalso | reflexivity | exfalso]; unfold Qlt in H; simpl in H; lia.
Qed.

Lemma fl_neg (q : Q) : q < 0 -> fl q = - round_pos (- q).
Proof.
  intros H. unfold fl. destruct q as [[|n|n] d]; cbn [Qnum];
    [exfalso | exfalso | reflexivity]; unfold Qlt in H; simpl in H; lia.
Qed.

Lemma fl_zero (q : Q) : q == 0 -> fl q = 0.
Proof.
  intros H. unfold fl. destruct q as [[|n|n] d]; cbn [Qnum];
    [reflexivity | exfalso | exfalso]; unfold Qeq in H; simpl in H; lia.
Qed.

Lemma fl_Qeq (a b : Q) : a == b -> fl a == fl b.
Proof. intros E. apply Qle_antisym; apply fl_mono; rewrite E; apply Qle_refl. Qed.

Lemma rne_Qeq (a b : Q) : a == b -> rne a = rne b.
Proof. intros E. apply Z.le_antisymm; apply rne_mono; rewrite E; apply Qle_refl. Qed.

(** A positive integer of at most 53 bits times a power of two within the
    exponent range is a binary64 value: rounding leaves it as it is. *)
Lemma round_pos_exact (m e : Z) :
  (0 < m < 2 ^ 53)%Z -> (emin <= e)%Z ->
  round_pos (inject_Z m * 2 ^ e) == inject_Z m * 2 ^ e.
Proof.
  intros [M0 M1] He. set (q := inject_Z m * 2 ^ e).
  assert (Hm : 0 < inject_Z m) by (change 0 with (inject_Z 0); rewrite <- Zlt_Qlt; exact M0).
  assert (Hq : 0 < q) by (apply Qmult_lt_0_compat; [exact Hm | apply pow2_pos]).
  destruct (ilog2_spec q Hq) as [L _].
  assert (U : q < 2 ^ (53 + e)).
  { unfold q. rewrite pow2_add. apply Qmult_lt_compat_r; [apply pow2_pos|].
    rewrite pow2_Z by lia. rewrite <- Zlt_Qlt. exact M1. }
  assert (I : (ilog2 q < 53 + e)%Z) by (apply pow2_lt_inv; lra).
  set (ue := ulp_exp q).
  assert (Hu : (ue <= e)%Z) by (unfold ue, ulp_exp; lia).
  rewrite round_pos_eq. fold ue.
  assert (S : q / 2 ^ ue == inject_Z (m * 2 ^ (e - ue))).
  { rewrite inject_Z_mult, <- pow2_Z by lia. unfold q.
    replace e with ((e - ue) + ue)%Z at 1 by ring. rewrite (pow2_add (e - ue) ue).
    field. pose proof (pow2_pos ue). lra. }
  rewrite (rne_Qeq _ _ S), rne_Z.
  rewrite inject_Z_mult, <- pow2_Z by lia. unfold q.
  rewrite <- Qmult_assoc, <- pow2_add.
  replace (e - ue + ue)%Z with e by ring. reflexivity.
Qed.

Lemma fl_exact (m e : Z) :
  (Z.abs m < 2 ^ 53)%Z -> (emin <= e)%Z ->
  fl (inject_Z m * 2 ^ e) == inject_Z m * 2 ^ e.
Proof.
  intros M He. pose proof (pow2_pos e) as P.
  destruct (Z.lt_trichotomy m 0) as [N|[->|Pm]].
  - assert (Q0 : inject_Z m * 2 ^ e < 0).
    { setoid_replace (inject_Z m * 2 ^ e) with (- (inject_Z (- m) * 2 ^ e))
        by (rewrite inject_Z_opp; ring).
      assert (0 < inject_Z (- m) * 2 ^ e); [|lra].
      apply Qmult_lt_0_compat; [|exact P].
      change 0 with (inject_Z 0). rewrite <- Zlt_Qlt. lia. }
    rewrite (fl_neg _ Q0).
    assert (E : - (inject_Z m * 2 ^ e) == inject_Z (- m) * 2 ^ e)
      by (rewrite inject_Z_opp; ring).
    assert (R : round_pos (- (inject_Z m * 2 ^ e)) == round_pos (inject_Z (- m) * 2 ^ e)).
    { assert (0 < inject_Z (- m) * 2 ^ e) by lra.
      rewrite <- !fl_pos by lra. apply fl_Qeq, E. }
    rewrite R, round_pos_exact by lia. rewrite inject_Z_opp. ring.
  - rewrite fl_zero; [ring_simplify; reflexivity | ring].
  - assert (Q0 : 0 < inject_Z m * 2 ^ e).
    { apply Qmult_lt_0_compat; [|exact P].
      change 0 with (inject_Z 0). rewrite <- Zlt_Qlt. lia. }
    rewrite (fl_pos _ Q0). apply round_pos_exact; lia.
Qed.

Lemma of_int_exact (n : Z) : (Z.abs n < 2 ^ 53)%Z -> of_int n == inject_Z n.
Proof.
  intros H. unfold of_int.
  rewrite (fl_Qeq (inject_Z n) (inject_Z n * 2 ^ 0)) by (change (2 ^ 0) with 1; ring).
  rewrite fl_exact by (unfold emin; lia). change (2 ^ 0) with 1. ring.
Qed.

(** Rounding keeps a value between two binary64 values it lies between. *)
Lemma fl_between (q : Q) (lo hi : Z) (e : Z) :
  (Z.abs lo < 2 ^ 53)%Z -> (Z.abs hi < 2 ^ 53)%Z -> (emin <= e)%Z ->
  inject_Z lo * 2 ^ e <= q <= inject_Z hi * 2 ^ e ->
  inject_Z lo * 2 ^ e <= fl q <= inject_Z hi * 2 ^ e.
Proof.
  intros L H E [A B]. split.
  - rewrite <- (fl_exact lo e L E). apply fl_mono, A.
  - rewrite <- (fl_exact hi e H E). apply fl_mono, B.
Qed.

Lemma rne_error (q : Q) : Qabs (inject_Z (rne q) - q) <= 1 # 2.
Proof.
  pose proof (Qfloor_le q) as L. pose proof (Qlt_floor q) as U.
  rewrite inject_Z_plus in U. change (inject_Z 1) with 1 in U.
  unfold rne. apply Qabs_Qle_condition.
  destruct (Qcompare_spec (q - inject_Z (Qfloor q)) (1 # 2)) as [E|E|E];
    [destruct (Z.even (Qfloor q))| |];
    try rewrite inject_Z_plus; try change (inject_Z 1) with 1; split; lra.
Qed.

Lemma ltb_lt (a b : Q) : ltb a b = true <-> a < b.
Proof.
  unfold ltb. rewrite negb_true_iff. split; intros H.
  - apply Qnot_le_lt. intros C. apply Qle_bool_iff in C. congruence.
  - destruct (Qle_bool b a) eqn:E; [|reflexivity].
    apply Qle_bool_iff in E. exfalso. lra.
Qed.

End FloatExact.

(* ================================================================== *)
(** * Properties of the colour step *)
(* ================================================================== *)

Lemma land_255 (x : Z) : 0 <= Z.land x 255 <= 255.
Proof.
  change 255 with (Z.ones 8) at 1 2. rewrite Z.land_ones by lia.
  pose proof (Z.mod_pos_bound x (2 ^ 8) ltac:(lia)). lia.
Qed.

Lemma bind_run {A B : Type} (m : M A) (k : A -> M B) (g : Gen) :
  bind m k g = k (fst (m g)) (snd (m g)).
Proof. unfold bind. destruct (m g). reflexivity. Qed.

Lemma brighten_rgb_bounds (r g b : Z) :
  0 <= r <= 255 -> 0 <= g <= 255 -> 0 <= b <= 255 -> r + g + b < 180 ->
  let '(r', g', b') := brighten_rgb (r, g, b) in
  180 <= r' + g' + b' /\ r' <= 255 /\ g' <= 255 /\ b' <= 255.
Proof.
  intros Hr Hg Hb Hs. unfold brighten_rgb.
  pose proof (Z.div_mod (180 - (r + g + b)) 3 ltac:(lia)) as D.
  pose proof (Z.mod_pos_bound (180 - (r + g + b)) 3 ltac:(lia)) as B.
  lia.
Qed.

Lemma rgb_channels_true (g : Gen) :
  fst (rgb_channels true g)
  = (let '(r, gc, b) := drawn_rgb g in
     if r + gc + b <? 180 then brighten_rgb (r, gc, b) else (r, gc, b)).
Proof.
  unfold drawn_rgb, rgb_channels. rewrite !bind_run. cbn [andb ret fst].
  destruct (_ <? 180); reflexivity.
Qed.

Lemma drawn_rgb_range (g : Gen) :
  let '(r, gc, b) := drawn_rgb g in
  0 <= r <= 255 /\ 0 <= gc <= 255 /\ 0 <= b <= 255.
Proof.
  unfold drawn_rgb, rgb_channels. rewrite !bind_run. cbn [andb ret fst].
  repeat split; apply land_255.
Qed.

(** C5. When the three channels [rgb] draws sum to less than 180, the colour
    it returns is the drawn one with every channel raised by
    [(180 - sum) // 3 + 1] and clamped to 255; its channels sum to at least
    180 and none exceeds 255. *)
Theorem brightening (g : Gen) (r gc b : Z) :
  drawn_rgb g = (r, gc, b) ->
  r + gc + b < 180 ->
  exists r' g' b' : Z,
    fst (rgb_channels true g) = (r', g', b')
    /\ fst (rgb true g) = rgb_text (r', g', b')
    /\ r' = Z.min 255 (r + ((180 - (r + gc + b)) / 3 + 1))
    /\ g' = Z.min 255 (gc + ((180 - (r + gc + b)) / 3 + 1))
    /\ b' = Z.min 255 (b + ((180 - (r + gc + b)) / 3 + 1))
    /\ 180 <= r' + g' + b' /\ r' <= 255 /\ g' <= 255 /\ b' <= 255.
Proof.
  intros E Hs.
  pose proof (drawn_rgb_range g) as R. rewrite E in R. destruct R as (Hr & Hg & Hb).
  pose proof (brighten_rgb_bounds r gc b Hr Hg Hb Hs) as B.
  assert (C : fst (rgb_channels true g) = brighten_rgb (r, gc, b)).
  { rewrite rgb_channels_true, E.
    destruct (Z.ltb_spec (r + gc + b) 180); [reflexivity | lia]. }
  destruct (brighten_rgb (r, gc, b)) as [[r' g'] b'] eqn:Eb.
  exists r', g', b'. split; [exact C|]. split.
  { unfold rgb. rewrite bind_run. cbn [ret fst]. rewrite C. reflexivity. }
  unfold brighten_rgb in Eb. injection Eb as <- <- <-.
  repeat split; try reflexivity; tauto.
Qed.

Lemma brightening_witness :
  drawn_rgb (after_draws 2 (make_rng "abc123")) = (102, 40, 37)
  /\ 102 + 40 + 37 < 180
  /\ fst (rgb true (after_draws 2 (make_rng "abc123"))) = "rgb(103, 41, 38)"%string.
Proof.
  assert (E : drawn_rgb (after_draws 2 (make_rng "abc123")) = (102, 40, 37))
    by (vm_compute; reflexivity).
  assert (S : 102 + 40 + 37 < 180) by lia.
  split; [exact E|]. split; [exact S|].
  destruct (brightening _ 102 40 37 E S) as (r' & g' & b' & _ & T & -> & -> & -> & _).
  rewrite T. vm_compute. reflexivity.
Defined.

(* ================================================================== *)
(** * Counting draws *)
(* ================================================================== *)

Lemma after_draws_add (n p : nat) (g : Gen) :
  after_draws p (after_draws n g) = after_draws (n + p) g.
Proof.
  unfold after_draws. rewrite (Nat.add_comm n p). symmetry. apply Nat.iter_add.
Qed.

Lemma after_draws_draws (n : nat) (g : Gen) :
  draws (after_draws n g) = (draws g + n)%nat.
Proof.
  induction n as [|n IH]; [simpl; lia|].
  rewrite after_draws_S. cbn [next_u32 snd draws]. lia.
Qed.

Lemma uses_ret {A : Type} (a : A) : uses (ret a) 0.
Proof. intros g. reflexivity. Qed.

Lemma uses_next_u32 : uses next_u32 1.
Proof. intros g. reflexivity. Qed.

Lemma uses_bind {A B : Type} (m : M A) (k : A -> M B) (n p : nat) :
  uses m n -> (forall a, uses (k a) p) -> uses (bind m k) (n + p).
Proof.
  intros Hm Hk g. rewrite bind_run, Hk, Hm. apply after_draws_add.
Qed.

Lemma uses_rand01 : uses rand01 1.
Proof.
  unfold rand01. apply (uses_bind _ _ 1 0); [exact uses_next_u32|].
  intros a. apply uses_ret.
Qed.

Lemma uses_rgb_channels (brighten : bool) : uses (rgb_channels brighten) 3.
Proof.
  unfold rgb_channels.
  apply (uses_bind _ _ 1 2); [exact uses_next_u32 | intros u1].
  apply (uses_bind _ _ 1 1); [exact uses_next_u32 | intros u2].
  apply (uses_bind _ _ 1 0); [exact uses_next_u32 | intros u3].
  destruct (_ && _); apply uses_ret.
Qed.

Lemma uses_rgb (brighten : bool) : uses (rgb brighten) 3.
Proof.
  unfold rgb. apply (uses_bind _ _ 3 0); [apply uses_rgb_channels|].
  intros c. apply uses_ret.
Qed.

Lemma costs_ret {A : Type} (k0 : nat) (a : A) (c : A -> nat) :
  c a = k0 -> costs k0 (ret a) c.
Proof. intros E g. exists 0%nat. cbn [ret fst snd]. split; [lia | reflexivity]. Qed.

Lemma costs_bind {A B : Type} (k0 n : nat) (m : M A) (k : A -> M B) (c : B -> nat) :
  uses m n -> (forall a, costs (k0 + n) (k a) c) -> costs k0 (bind m k) c.
Proof.
  intros Hm Hk g. rewrite bind_run.
  destruct (Hk (fst (m g)) (snd (m g))) as (d & E & S).
  exists (n + d)%nat. split; [lia|].
  rewrite S, Hm. apply after_draws_add.
Qed.

Lemma costs_0 {A : Type} (m : M A) (c : A -> nat) :
  costs 0 m c -> forall g, snd (m g) = after_draws (c (fst (m g))) g.
Proof. intros H g. destruct (H g) as (d & E & S). rewrite E. exact S. Qed.

Ltac step_draw :=
  first
    [ eapply costs_bind; [exact uses_rand01 | intro]
    | eapply costs_bind; [exact uses_next_u32 | intro]
    | eapply costs_bind; [exact (uses_rgb true) | intro] ].

Lemma grid_cell_costs (cell : Q) (gy gx : Z) :
  costs 0 (grid_cell cell gy gx) cell_draws.
Proof.
  unfold grid_cell. step_draw.
  destruct (Float.ltb _ _); [apply costs_ret; reflexivity|].
  do 5 step_draw.
  destruct (_ =? 0).
  - do 2 step_draw. apply costs_ret. reflexivity.
  - step_draw. apply costs_ret. reflexivity.
Qed.

Lemma rects_app (l l' : list part) : rects (l ++ l') = (rects l + rects l')%nat.
Proof. unfold rects. rewrite filter_app, length_app. reflexivity. Qed.

Lemma circles_app (l l' : list part) : circles (l ++ l') = (circles l + circles l')%nat.
Proof. unfold circles. rewrite filter_app, length_app. reflexivity. Qed.

(** A loop whose every iteration makes [q] draws and 9 more for each
    rectangle, 8 more for each circle it emits. *)
Lemma for_range_draws (q : nat) (body : Z -> M (list part)) :
  (forall i g, snd (body i g)
               = after_draws (q + 9 * rects (fst (body i g)) + 8 * circles (fst (body i g))) g) ->
  forall n i g,
    snd (for_range n i body g)
    = after_draws (n * q + 9 * rects (fst (for_range n i body g))
                   + 8 * circles (fst (for_range n i body g))) g.
Proof.
  intros Hb. induction n as [|n IH]; intros i g.
  - reflexivity.
  - cbn [for_range]. rewrite !bind_run. cbn [ret fst snd].
    rewrite IH, Hb, after_draws_add, rects_app, circles_app. f_equal. lia.
Qed.

Lemma for_range_Forall {A : Type} (P : A -> Prop) (body : Z -> M (list A)) :
  (forall i g, Forall P (fst (body i g))) ->
  forall n i g, Forall P (fst (for_range n i body g)).
Proof.
  intros Hb. induction n as [|n IH]; intros i g.
  - constructor.
  - cbn [for_range]. rewrite !bind_run. cbn [ret fst].
    apply Forall_app. split; [apply Hb | apply IH].
Qed.

Lemma for_range_Forall_at {A : Type} (P : Z -> A -> Prop) (body : Z -> M (list A)) :
  (forall i g, Forall (P i) (fst (body i g))) ->
  forall n i g,
    Forall (fun a => exists j : Z, (i <= j < i + Z.of_nat n)%Z /\ P j a)
           (fst (for_range n i body g)).
Proof.
  intros Hb. induction n as [|n IH]; intros i g.
  - constructor.
  - cbn [for_range]. rewrite !bind_run. cbn [ret fst].
    apply Forall_app. split.
    + eapply Forall_impl; [|apply Hb]. intros a Ha. exists i. split; [lia | exact Ha].
    + eapply Forall_impl; [|apply IH]. intros a (j & Hj & Ha). exists j. split; [lia | exact Ha].
Qed.

(* ================================================================== *)
(** * Ranges of the drawn quantities *)
(* ================================================================== *)

Lemma post_ret {A : Type} (a : A) (P : A -> Prop) : P a -> post (ret a) P.
Proof. intros H g. exact H. Qed.

Lemma post_bind {A B : Type} (m : M A) (k : A -> M B) (Q : A -> Prop) (P : B -> Prop) :
  post m Q -> (forall a, Q a -> post (k a) P) -> post (bind m k) P.
Proof. intros Hm Hk g. rewrite bind_run. apply Hk, Hm. Qed.

Lemma post_any {A : Type} (m : M A) : post m (fun _ => True).
Proof. intros g. exact I. Qed.

Lemma xorshift_range (s : Z) : u32 (xorshift s).
Proof.
  unfold xorshift. rewrite land_MASK32. unfold u32. apply Z.mod_pos_bound. lia.
Qed.

Lemma post_next_u32 : post next_u32 u32.
Proof. intros g. apply xorshift_range. Qed.

Ltac qle_compute := apply Qle_bool_iff; vm_compute; reflexivity.

Local Open Scope Q_scope.

Lemma rand01_range : post rand01 (fun r => 0 <= r <= rmax).
Proof.
  unfold rand01. eapply post_bind; [exact post_next_u32|].
  intros u [U0 U1]. apply post_ret.
  assert (L : inject_Z 0 <= inject_Z u) by (rewrite <- Zle_Qle; exact U0).
  assert (H : inject_Z u <= inject_Z 4294967295) by (rewrite <- Zle_Qle; lia).
  apply FloatFacts.fl_mono in L, H. fold (Float.of_int 0) (Float.of_int u) in L.
  fold (Float.of_int u) (Float.of_int 4294967295) in H.
  split.
  - eapply Qle_trans; [|apply FloatFacts.div_le; [reflexivity | exact L]]. qle_compute.
  - eapply Qle_trans; [apply FloatFacts.div_le; [reflexivity | exact H]|]. qle_compute.
Qed.

Lemma rmax_lt_1 : rmax < 1.
Proof. reflexivity. Qed.

(** The opacity of a grid shape. *)
Lemma alpha_range (a : Q) :
  0 <= a <= rmax -> lit 0.25 <= lit 0.25 +! a *! lit 0.65 <= lit 0.90.
Proof.
  intros [A0 A1]. split.
  - apply (Qle_trans _ (lit 0.25 +! 0 *! lit 0.65)); [qle_compute|].
    apply FloatFacts.add_le; [apply Qle_refl|].
    apply FloatFacts.mul_le_r; [qle_compute | exact A0].
  - apply (Qle_trans _ (lit 0.25 +! rmax *! lit 0.65)); [|qle_compute].
    apply FloatFacts.add_le; [apply Qle_refl|].
    apply FloatFacts.mul_le_r; [qle_compute | exact A1].
Qed.

(** The factor of the cell size in a circle's radius. *)
Lemma radius_factor_range (a : Q) :
  0 <= a <= rmax -> lit 0.12 <= lit 0.12 +! a *! lit 0.35 <= lit 0.47.
Proof.
  intros [A0 A1]. split.
  - apply (Qle_trans _ (lit 0.12 +! 0 *! lit 0.35)); [qle_compute|].
    apply FloatFacts.add_le; [apply Qle_refl|].
    apply FloatFacts.mul_le_r; [qle_compute | exact A0].
  - apply (Qle_trans _ (lit 0.12 +! rmax *! lit 0.35)); [|qle_compute].
    apply FloatFacts.add_le; [apply Qle_refl|].
    apply FloatFacts.mul_le_r; [qle_compute | exact A1].
Qed.

(** The jitter added to a ray's angle. *)
Lemma jitter_range (a : Q) :
  0 <= a <= rmax -> - lit 0.06 <= (a -! lit 0.5) *! lit 0.12 <= lit 0.06.
Proof.
  intros [A0 A1]. split.
  - apply (Qle_trans _ ((0 -! lit 0.5) *! lit 0.12)); [qle_compute|].
    apply FloatFacts.mul_le_r; [qle_compute|].
    apply FloatFacts.sub_le; [exact A0 | apply Qle_refl].
  - apply (Qle_trans _ ((rmax -! lit 0.5) *! lit 0.12)); [|qle_compute].
    apply FloatFacts.mul_le_r; [qle_compute|].
    apply FloatFacts.sub_le; [exact A1 | apply Qle_refl].
Qed.

(** The factor of the outer radius in a ray's length. *)
Lemma length_factor_range (a : Q) :
  0 <= a <= rmax -> lit 0.8 <= lit 0.8 +! lit 0.4 *! a <= lit 1.2.
Proof.
  intros [A0 A1]. split.
  - apply (Qle_trans _ (lit 0.8 +! lit 0.4 *! 0)); [qle_compute|].
    apply FloatFacts.add_le; [apply Qle_refl|].
    apply FloatFacts.mul_le_l; [qle_compute | exact A0].
  - apply (Qle_trans _ (lit 0.8 +! lit 0.4 *! rmax)); [|qle_compute].
    apply FloatFacts.add_le; [apply Qle_refl|].
    apply FloatFacts.mul_le_l; [qle_compute | exact A1].
Qed.

Lemma hundredths_alpha (alpha : Q) :
  lit 0.25 <= alpha <= lit 0.90 -> (25 <= hundredths alpha <= 90)%Z.
Proof.
  intros [L H]. unfold hundredths.
  assert (P : 0 <= alpha).
  { eapply Qle_trans; [|exact L]. qle_compute. }
  pose proof (Qabs_pos _ P) as E. split.
  - apply FloatFacts.rne_ge_Z. rewrite E.
    apply (Qle_trans _ (lit 0.25 * 100)); [qle_compute|].
    apply Qmult_le_compat_r; [exact L | discriminate].
  - apply (Z.le_trans _ (Float.rne (lit 0.90 * 100))); [|vm_compute; discriminate].
    apply FloatFacts.rne_mono. rewrite E.
    apply Qmult_le_compat_r; [exact H | discriminate].
Qed.

Lemma post_rgb (brighten : bool) : post (rgb brighten) is_rgb_text.
Proof.
  intros g. unfold rgb. rewrite bind_run. cbn [ret fst]. eexists. reflexivity.
Qed.

Lemma hundredths_mono (a b : Q) : 0 <= a -> a <= b -> (hundredths a <= hundredths b)%Z.
Proof.
  intros A H. unfold hundredths. apply FloatFacts.rne_mono.
  rewrite (Qabs_pos a A), (Qabs_pos b) by (eapply Qle_trans; eassumption).
  apply Qmult_le_compat_r; [exact H | discriminate].
Qed.

Lemma mul_nonneg (a b : Q) : 0 <= a -> 0 <= b -> 0 <= a *! b.
Proof.
  intros A B. apply (Qle_trans _ (0 *! b)); [cbv; discriminate|].
  apply FloatFacts.mul_le_r; assumption.
Qed.

Lemma grid_cell_post (cell : Q) (gy gx : Z) :
  post (grid_cell cell gy gx)
       (fun o => match o with
                 | Some p => grid_shape p /\ grid_part_ok cell p /\ fill_ok p
                 | None => True
                 end).
Proof.
  unfold grid_cell.
  eapply post_bind; [exact rand01_range | intros p _].
  destruct (Float.ltb _ _); [apply post_ret; exact I|].
  eapply post_bind; [apply post_any | intros jx _].
  eapply post_bind; [apply post_any | intros jy _].
  eapply post_bind; [exact (post_rgb true) | intros col Hcol].
  eapply post_bind; [exact rand01_range | intros a Ha].
  eapply post_bind; [apply post_any | intros k _].
  pose proof (alpha_range a Ha) as A.
  destruct (_ =? 0)%Z.
  - eapply post_bind; [apply post_any | intros rw _].
    eapply post_bind; [apply post_any | intros rh _].
    apply post_ret. split; [left; reflexivity|]. split; [|exact Hcol].
    unfold grid_part_ok. split; [exact A | apply hundredths_alpha, A].
  - eapply post_bind; [exact rand01_range | intros rr Hr].
    apply post_ret. split; [right; reflexivity|]. split; [|exact Hcol].
    pose proof (radius_factor_range rr Hr) as K.
    unfold grid_part_ok. split; [split; [exact A | apply hundredths_alpha, A]|]. split.
    + eexists. split; [exact K | reflexivity].
    + intros C.
      assert (V : cell *! lit 0.12 <= cell *! (lit 0.12 +! rr *! lit 0.35)
                  <= cell *! lit 0.47)
        by (split; apply FloatFacts.mul_le_l; tauto).
      split; [exact V|].
      assert (Z0 : 0 <= cell *! lit 0.12) by (apply mul_nonneg; [exact C | qle_compute]).
      split; apply hundredths_mono; try tauto.
      eapply Qle_trans; [exact Z0 | tauto].
Qed.

Lemma grid_cell_parts_draws (cell : Q) (gy gx : Z) (g : Gen) :
  snd (grid_cell_parts cell gy gx g)
  = after_draws (1 + 9 * rects (fst (grid_cell_parts cell gy gx g))
                 + 8 * circles (fst (grid_cell_parts cell gy gx g))) g.
Proof.
  unfold grid_cell_parts. rewrite !bind_run. cbn [ret fst snd].
  rewrite (costs_0 _ _ (grid_cell_costs cell gy gx)).
  pose proof (grid_cell_post cell gy gx g) as S.
  destruct (fst (grid_cell cell gy gx g)) as [p|]; [|reflexivity].
  destruct S as [[S|S] _]; destruct p; try discriminate S; reflexivity.
Qed.

Lemma grid_cell_parts_ok (cell : Q) (gy gx : Z) (g : Gen) :
  Forall (fun p => grid_shape p /\ grid_part_ok cell p /\ fill_ok p)
         (fst (grid_cell_parts cell gy gx g)).
Proof.
  unfold grid_cell_parts. rewrite !bind_run. cbn [ret fst].
  pose proof (grid_cell_post cell gy gx g) as S.
  destruct (fst (grid_cell cell gy gx g)); constructor; [exact S | constructor].
Qed.

Lemma grid_unfold (cell : Q) (cells : Z) :
  grid cell cells
  = range cells (fun gy => range cells (fun gx => grid_cell_parts cell gy gx)).
Proof. reflexivity. Qed.

Lemma grid_ok (cell : Q) (cells : Z) (g : Gen) :
  Forall (fun p => grid_shape p /\ grid_part_ok cell p /\ fill_ok p) (fst (grid cell cells g)).
Proof.
  rewrite grid_unfold. unfold range.
  apply for_range_Forall. intros gy g1.
  apply for_range_Forall. intros gx g2.
  apply grid_cell_parts_ok.
Qed.

Lemma grid_after (cell : Q) (cells : Z) (g : Gen) :
  snd (grid cell cells g)
  = after_draws (Z.to_nat cells * Z.to_nat cells
                 + 9 * rects (fst (grid cell cells g))
                 + 8 * circles (fst (grid cell cells g))) g.
Proof.
  rewrite grid_unfold. unfold range.
  apply (for_range_draws (Z.to_nat cells)).
  intros gy g1.
  rewrite (for_range_draws 1 _ (grid_cell_parts_draws cell gy)).
  rewrite Nat.mul_1_r. reflexivity.
Qed.

Local Close Scope Q_scope.
Local Open Scope nat_scope.

Lemma for_range_length {A : Type} (q : nat) (body : Z -> M (list A)) :
  (forall i g, List.length (fst (body i g)) <= q) ->
  forall n i g, List.length (fst (for_range n i body g)) <= n * q.
Proof.
  intros Hb. induction n as [|n IH]; intros i g.
  - apply Nat.le_refl.
  - cbn [for_range]. rewrite !bind_run. cbn [ret fst]. rewrite length_app.
    pose proof (Hb i g). pose proof (IH (i + 1)%Z (snd (body i g))). lia.
Qed.

Lemma grid_length (cell : Q) (cells : Z) (g : Gen) :
  List.length (fst (grid cell cells g)) <= Z.to_nat cells * Z.to_nat cells.
Proof.
  rewrite grid_unfold. unfold range.
  apply (for_range_length (Z.to_nat cells)). intros gy g1.
  rewrite <- (Nat.mul_1_r (Z.to_nat cells)) at 2.
  apply (for_range_length 1). intros gx g2.
  unfold grid_cell_parts. rewrite bind_run. cbn [ret fst].
  destruct (fst (grid_cell cell gy gx g2)); cbn [List.length]; lia.
Qed.

Lemma grid_shapes_count (l : list part) :
  Forall grid_shape l -> rects l + circles l = List.length l.
Proof.
  unfold rects, circles.
  induction 1 as [|p l [S|S] _ IH]; [reflexivity| |];
    destruct p; try discriminate S; cbn [filter is_rect is_circle List.length]; lia.
Qed.

(** C3, as amended. The grid phase over [n] by [n] cells makes one skip-check
    draw for every cell and, for every cell not skipped, a further 9 draws
    when it emits a rectangle and 8 when it emits a circle.  With the skip
    check included a rectangle cell costs 10 draws and a circle cell 9, and
    what is added to those is 1 draw for every skipped cell. *)
Theorem grid_draw_count (cell : Q) (cells : Z) (g : Gen) :
  let shapes := fst (grid cell cells g) in
  let n := Z.to_nat cells in
  Forall grid_shape shapes
  /\ rects shapes + circles shapes <= n * n
  /\ grid_draws cell cells g = 9 * rects shapes + 8 * circles shapes + 1 * (n * n)
  /\ grid_draws cell cells g
     = 10 * rects shapes + 9 * circles shapes
       + 1 * (n * n - (rects shapes + circles shapes))
  /\ snd (grid cell cells g)
     = after_draws (9 * rects shapes + 8 * circles shapes + 1 * (n * n)) g
  /\ (forall (gy gx : Z) (g' : Gen),
        match fst (grid_cell cell gy gx g') with
        | None => snd (grid_cell cell gy gx g') = after_draws 1 g'
        | Some p =>
            grid_shape p
            /\ snd (grid_cell cell gy gx g') = after_draws (if is_rect p then 10 else 9) g'
        end).
Proof.
  cbv zeta. pose proof (grid_after cell cells g) as A.
  assert (E : Z.to_nat cells * Z.to_nat cells + 9 * rects (fst (grid cell cells g))
              + 8 * circles (fst (grid cell cells g))
              = 9 * rects (fst (grid cell cells g)) + 8 * circles (fst (grid cell cells g))
                + 1 * (Z.to_nat cells * Z.to_nat cells)) by lia.
  rewrite E in A.
  assert (S : Forall grid_shape (fst (grid cell cells g))).
  { eapply Forall_impl; [|apply grid_ok]. intros p [S _]. exact S. }
  assert (L : rects (fst (grid cell cells g)) + circles (fst (grid cell cells g))
              <= Z.to_nat cells * Z.to_nat cells).
  { rewrite (grid_shapes_count _ S). apply grid_length. }
  assert (D : grid_draws cell cells g
              = 9 * rects (fst (grid cell cells g)) + 8 * circles (fst (grid cell cells g))
                + 1 * (Z.to_nat cells * Z.to_nat cells)).
  { unfold grid_draws. rewrite A, after_draws_draws. lia. }
  split; [exact S|]. split; [exact L|]. split; [exact D|].
  split; [rewrite D; lia|]. split; [exact A|].
  intros gy gx g'.
  pose proof (costs_0 _ _ (grid_cell_costs cell gy gx) g') as C.
  pose proof (grid_cell_post cell gy gx g') as P.
  destruct (fst (grid_cell cell gy gx g')) as [p|]; [|exact C].
  destruct P as [P _]. split; [exact P|].
  destruct P as [P|P]; destruct p; try discriminate P; exact C.
Qed.

(** C3 as worded fails: seed abc123 on a 64-pixel canvas of 2 by 2 cells
    emits one rectangle and three circles with 37 draws, not 41. *)
Lemma grid_draw_count_counterexample :
  let g := after_draws 3 (make_rng "abc123") in
  let shapes := fst (grid (int_div 64 2) 2 g) in
  rects shapes = 1 /\ circles shapes = 3
  /\ grid_draws (int_div 64 2) 2 g = 37
  /\ grid_draws (int_div 64 2) 2 g <> grid_draws_as_worded shapes 2.
Proof. vm_compute. repeat split; discriminate. Qed.

(* ================================================================== *)
(** * The radial motif *)
(* ================================================================== *)

Section Motif.

Variables cos sin : Q -> Q.

Lemma uses_ray (cx cy inner outer : Q) (i : Z) :
  uses (ray cos sin cx cy inner outer i) 6.
Proof.
  unfold ray.
  apply (uses_bind _ _ 1 5); [exact uses_rand01 | intros j].
  apply (uses_bind _ _ 1 4); [exact uses_rand01 | intros v].
  apply (uses_bind _ _ 3 1); [exact (uses_rgb true) | intros col].
  apply (uses_bind _ _ 1 0); [exact uses_next_u32 | intros k].
  apply uses_ret.
Qed.

Lemma ray_run (cx cy inner outer : Q) (i : Z) (g : Gen) :
  fst (ray cos sin cx cy inner outer i g)
  = (let ang := (Float.of_int 2 *! math_pi *! Float.of_int i /! Float.of_int rays)
                +! ray_jitter g in
     let r2 := outer *! ray_length_factor g in
     Ray (cx +! inner *! cos ang) (cy +! inner *! sin ang)
         (cx +! r2 *! cos ang) (cy +! r2 *! sin ang)
         (ray_stroke g) (ray_width g)).
Proof.
  unfold ray, ray_jitter, ray_length_factor, ray_stroke, ray_width.
  rewrite !bind_run. cbn [ret fst].
  rewrite !(uses_rgb true), !uses_rand01, !after_draws_add. reflexivity.
Qed.

(** A loop that appends one part per iteration, each iteration making [q]
    draws. *)
Lemma for_range_single (q : nat) (body : Z -> M part) :
  (forall i, uses (body i) q) ->
  forall n i g,
    fst (for_range n i (fun j => r <- body j ;; ret [r]) g)
    = map (fun t => fst (body (i + Z.of_nat t)%Z (after_draws (q * t) g))) (seq 0 n)
    /\ snd (for_range n i (fun j => r <- body j ;; ret [r]) g) = after_draws (q * n) g.
Proof.
  intros Hb. induction n as [|n IH]; intros i g.
  - split; [reflexivity|]. rewrite Nat.mul_0_r. reflexivity.
  - cbn [for_range]. rewrite !bind_run. cbn [ret fst snd].
    rewrite !Hb. destruct (IH (i + 1)%Z (after_draws q g)) as [IH1 IH2].
    rewrite IH1, IH2. split.
    + cbn [seq map app]. rewrite Z.add_0_r, Nat.mul_0_r. f_equal.
      rewrite <- seq_shift, map_map. apply map_ext. intros t.
      rewrite after_draws_add.
      replace (i + 1 + Z.of_nat t)%Z with (i + Z.of_nat (S t))%Z by lia.
      replace (q + q * t) with (q * S t) by lia. reflexivity.
    + rewrite after_draws_add. f_equal. lia.
Qed.

Lemma motif_run (size : Z) (g : Gen) :
  let c := int_div size 2 in
  let inner := Float.of_int size *! lit 0.06 in
  let outer := Float.of_int size *! lit 0.32 in
  fst (motif cos sin size g)
  = map (fun t => fst (ray cos sin c c inner outer (Z.of_nat t) (after_draws (6 * t) g)))
        (seq 0 40)
  /\ snd (motif cos sin size g) = after_draws 240 g.
Proof.
  cbv zeta. unfold motif, range.
  destruct (for_range_single 6 _ (uses_ray (int_div size 2) (int_div size 2)
              (Float.of_int size *! lit 0.06) (Float.of_int size *! lit 0.32))
              (Z.to_nat rays) 0%Z g) as [E1 E2].
  split; [|exact E2]. rewrite E1. reflexivity.
Qed.

End Motif.

Lemma nth_error_map_seq {A : Type} (h : nat -> A) (n i : nat) :
  i < n -> nth_error (map h (seq 0 n)) i = Some (h i).
Proof.
  intros H. apply map_nth_error.
  rewrite (nth_error_nth' _ 0) by (rewrite length_seq; exact H).
  rewrite seq_nth by exact H. reflexivity.
Qed.

(** C4, as amended. The motif emits exactly 40 ray lines and each ray makes
    exactly 6 draws: angle jitter (1), length variation (1), stroke colour
    (3), stroke width (1).  Ray [i] runs from the inner radius, 6% of the
    canvas, to an outer radius of 32% of the canvas times a factor within
    [0.8, 1.2], both about the canvas centre, at the angle [2 pi i / 40]
    plus a jitter within [-0.06, 0.06]. *)
Theorem motif_rays (cos sin : Q -> Q) (size : Z) (g : Gen) :
  let c := int_div size 2 in
  let inner := Float.of_int size *! lit 0.06 in
  let outer := Float.of_int size *! lit 0.32 in
  let lines := fst (motif cos sin size g) in
  List.length lines = 40
  /\ snd (motif cos sin size g) = after_draws (40 * 6) g
  /\ forall i : nat, i < 40 ->
       let gi := after_draws (6 * i) g in
       let ang := (Float.of_int 2 *! math_pi *! Float.of_int (Z.of_nat i) /! Float.of_int 40)
                  +! ray_jitter gi in
       let r2 := outer *! ray_length_factor gi in
       nth_error lines i
       = Some (Ray (c +! inner *! cos ang) (c +! inner *! sin ang)
                   (c +! r2 *! cos ang) (c +! r2 *! sin ang)
                   (ray_stroke gi) (ray_width gi))
       /\ snd (ray cos sin c c inner outer (Z.of_nat i) gi) = after_draws 6 gi
       /\ (- lit 0.06 <= ray_jitter gi <= lit 0.06)%Q
       /\ (lit 0.8 <= ray_length_factor gi <= lit 1.2)%Q.
Proof.
  cbv zeta. destruct (motif_run cos sin size g) as [E1 E2]. cbv zeta in E1.
  split; [rewrite E1, length_map, length_seq; reflexivity|].
  split; [exact E2|].
  intros i Hi. split; [|split; [apply uses_ray | split]].
  - rewrite E1, (nth_error_map_seq _ 40 i Hi), ray_run. reflexivity.
  - apply jitter_range, rand01_range.
  - apply length_factor_range, rand01_range.
Qed.

(** C4 as worded fails: the first ray of seed abc123 on a 64-pixel canvas of
    2 by 2 cells makes 6 draws whatever the trigonometric functions are, so
    not 4. *)
Lemma motif_rays_counterexample :
  let g := after_draws 40 (make_rng "abc123") in
  ~ (exists cos sin : Q -> Q,
       draws (snd (ray cos sin (int_div 64 2) (int_div 64 2)
                       (Float.of_int 64 *! lit 0.06) (Float.of_int 64 *! lit 0.32) 0 g))
       = draws g + 4).
Proof.
  cbv zeta. intros (cos & sin & H).
  rewrite uses_ray, after_draws_draws in H. lia.
Qed.

(* ================================================================== *)
(** * The whole scene *)
(* ================================================================== *)

Lemma scene_run (cos sin : Q -> Q) (size cells : Z) (g : Gen) :
  let g1 := after_draws 3 g in
  let g2 := snd (grid (int_div size cells) cells g1) in
  fst (scene cos sin size cells g)
  = ([SvgOpen size; Background size (fst (rgb false g))]
     ++ fst (grid (int_div size cells) cells g1)
     ++ fst (motif cos sin size g2)
     ++ [Anchor (int_div size 2) (int_div size 2) (Float.of_int size *! lit 0.03)
                (fst (rgb true (after_draws 240 g2)));
         SvgClose])%list.
Proof.
  cbv zeta. unfold scene. rewrite !bind_run. cbn [ret fst].
  rewrite (uses_rgb false g).
  destruct (motif_run cos sin size
              (snd (grid (int_div size cells) cells (after_draws 3 g)))) as [_ E].
  rewrite E. reflexivity.
Qed.

Lemma motif_parts (cos sin : Q -> Q) (size : Z) (g : Gen) (p : part) :
  In p (fst (motif cos sin size g)) ->
  exists (x1 y1 x2 y2 : Q) (gi : Gen), p = Ray x1 y1 x2 y2 (ray_stroke gi) (ray_width gi).
Proof.
  destruct (motif_run cos sin size g) as [E _]. cbv zeta in E. rewrite E.
  intros H. apply in_map_iff in H. destruct H as (t & <- & _).
  rewrite ray_run. cbv zeta. eauto 6.
Qed.

(** A property of parts holds of a whole scene when it holds of each kind
    of part a scene is made of. *)
Lemma scene_Forall (P : part -> Prop) (cos sin : Q -> Q) (size cells : Z) (g : Gen) :
  P (SvgOpen size) ->
  P (Background size (fst (rgb false g))) ->
  (forall p, grid_shape p -> grid_part_ok (int_div size cells) p -> fill_ok p -> P p) ->
  (forall x1 y1 x2 y2 gi, P (Ray x1 y1 x2 y2 (ray_stroke gi) (ray_width gi))) ->
  (forall cx cy r gi, P (Anchor cx cy r (fst (rgb true gi)))) ->
  P SvgClose ->
  Forall P (fst (scene cos sin size cells g)).
Proof.
  intros Ho Hb Hg Hr Ha Hc. rewrite scene_run. cbv zeta.
  repeat (apply Forall_app; split).
  - constructor; [exact Ho|]. constructor; [exact Hb | constructor].
  - eapply Forall_impl; [|apply grid_ok]. intros p (S & K & F). apply Hg; assumption.
  - apply Forall_forall. intros p Hp.
    destruct (motif_parts _ _ _ _ _ Hp) as (x1 & y1 & x2 & y2 & gi & ->). apply Hr.
  - constructor; [apply Ha|]. constructor; [exact Hc | constructor].
Qed.

(** C6. [rand01] yields a value in [[0, 1)].  In any scene every grid shape
    has an opacity within [0.25, 0.90], printed as a number of hundredths
    from 25 to 90, and every grid circle has as radius the cell size times a
    factor within [0.12, 0.47]: on a canvas of non-negative size the radius
    lies between 0.12 and 0.47 times the cell size, and so do the three as
    printed. *)
Theorem grid_opacity_radius (cos sin : Q -> Q) (seed : string) (size cells : Z) :
  (forall g, 0 <= fst (rand01 g) < 1)%Q
  /\ Forall (grid_part_ok (int_div size cells))
            (fst (scene cos sin size cells (make_rng seed))).
Proof.
  split.
  - intros g. destruct (rand01_range g) as [L H]. split; [exact L|].
    eapply Qle_lt_trans; [exact H | exact rmax_lt_1].
  - apply scene_Forall; try exact I.
    + intros p _ K _. exact K.
    + intros. exact I.
    + intros. exact I.
Qed.

Lemma filter_is_ray_grid (l : list part) : Forall grid_shape l -> filter is_ray l = [].
Proof.
  induction 1 as [|p l [S|S] _ IH]; [reflexivity| |];
    destruct p; try discriminate S; exact IH.
Qed.

Lemma filter_is_ray_map (h : nat -> part) (l : list nat) :
  (forall t, is_ray (h t) = true) -> filter is_ray (map h l) = map h l.
Proof.
  intros Hh. induction l as [|a l IH]; [reflexivity|].
  cbn [map filter]. rewrite Hh, IH. reflexivity.
Qed.

Lemma scene_rays (cos sin : Q -> Q) (size cells : Z) (g : Gen) :
  filter is_ray (fst (scene cos sin size cells g))
  = fst (motif cos sin size (snd (grid (int_div size cells) cells (after_draws 3 g)))).
Proof.
  rewrite scene_run. cbv zeta.
  rewrite !filter_app.
  rewrite (filter_is_ray_grid (fst (grid _ _ _))).
  2:{ eapply Forall_impl; [|apply grid_ok]. intros p [S _]. exact S. }
  destruct (motif_run cos sin size
    (snd (grid (int_div size cells) cells (after_draws 3 g)))) as [E _].
  cbv zeta in E. rewrite E.
  rewrite filter_is_ray_map; [|intros t; rewrite ray_run; reflexivity].
  cbn [filter is_ray app]. apply app_nil_r.
Qed.

Lemma width_text (k : Z) :
  f (Float.of_int (1 + k mod 4)) = (str (1 + k mod 4) ++ ".00")%string.
Proof.
  pose proof (Z.mod_pos_bound k 4 ltac:(lia)) as B.
  assert (C : (k mod 4 = 0 \/ k mod 4 = 1 \/ k mod 4 = 2 \/ k mod 4 = 3)%Z) by lia.
  destruct C as [-> | [-> | [-> | ->]]]; vm_compute; reflexivity.
Qed.

(** C10. A scene has 40 ray lines.  The stroke width of the [i]-th is 1
    plus the sixth and last draw of ray [i] modulo 4, where ray [i] starts
    [6 * i] draws after the grid: an integer from 1 to 4, written with two
    decimals; its stroke opacity is the constant 0.8. *)
Theorem ray_stroke_width (cos sin : Q -> Q) (seed : string) (size cells : Z) :
  let g2 := snd (grid (int_div size cells) cells (after_draws 3 (make_rng seed))) in
  let lines := filter is_ray (fst (scene cos sin size cells (make_rng seed))) in
  List.length lines = 40
  /\ forall i : nat, i < 40 ->
       let gi := after_draws (6 * i) g2 in
       let u := fst (next_u32 (after_draws 5 gi)) in
       exists (x1 y1 x2 y2 : Q) (stroke : string),
         let line := Ray x1 y1 x2 y2 stroke (1 + u mod 4) in
         nth_error lines i = Some line
         /\ snd (ray cos sin (int_div size 2) (int_div size 2)
                     (Float.of_int size *! lit 0.06) (Float.of_int size *! lit 0.32)
                     (Z.of_nat i) gi) = after_draws 6 gi
         /\ (1 <= 1 + u mod 4 <= 4)%Z
         /\ attr "stroke-width" (node_of line) = Some (str (1 + u mod 4) ++ ".00")%string
         /\ attr "stroke-opacity" (node_of line) = Some "0.8"%string.
Proof.
  cbv zeta. rewrite scene_rays.
  set (g2 := snd (grid (int_div size cells) cells (after_draws 3 (make_rng seed)))).
  destruct (motif_run cos sin size g2) as [E _]. cbv zeta in E.
  split; [rewrite E, length_map, length_seq; reflexivity|].
  intros i Hi. do 5 eexists.
  split; [rewrite E, (nth_error_map_seq _ 40 i Hi), ray_run; reflexivity|].
  split; [apply uses_ray|].
  split; [pose proof (Z.mod_pos_bound (fst (next_u32 (after_draws 5 (after_draws (6 * i) g2)))) 4
                        ltac:(lia)); lia|].
  split; [|reflexivity].
  rewrite <- width_text. reflexivity.
Qed.

(* ================================================================== *)
(** * Determinism and validation *)
(* ================================================================== *)

(** The seed reaches the scene only through the initial generator state. *)
Lemma build_svg_by_state (cos sin : Q -> Q) (seed seed' : string) (size cells : Z) :
  make_rng seed = make_rng seed' ->
  build_svg cos sin seed size cells = build_svg cos sin seed' size cells.
Proof. intros E. unfold build_svg. rewrite E. reflexivity. Qed.

(** C1. Two evaluations of [build_svg] with identical seed text, canvas
    size and grid cell count produce identical output text (or fail alike):
    every evaluation starts from a generator of its own, made from the
    seed. *)
Theorem build_svg_deterministic
    (cos sin : Q -> Q) (seed seed' : string) (size size' cells cells' : Z) :
  seed = seed' -> size = size' -> cells = cells' ->
  build_svg cos sin seed size cells = build_svg cos sin seed' size' cells'.
Proof. intros -> -> ->. reflexivity. Qed.

Lemma build_svg_deterministic_witness :
  build_svg (fun _ => 1%Q) (fun _ => 0%Q) "abc123" 64 2
  = build_svg (fun _ => 1%Q) (fun _ => 0%Q) "abc123" 64 2.
Proof.
  exact (build_svg_deterministic (fun _ => 1%Q) (fun _ => 0%Q)
           "abc123" "abc123" 64 64 2 2 eq_refl eq_refl eq_refl).
Defined.

Local Open Scope Q_scope.






Local Close Scope Q_scope.







Example main_boundary :
  let w := mkWorld [] [] [] in
  let id := fun s : string => s in
  fst (main (fun _ => 1%Q) (fun _ => 0%Q) id id (mkArgs "abc123" "out.svg" 64 2) w) = None
  /\ main (fun _ => 1%Q) (fun _ => 0%Q) id id (mkArgs "abc123" "out.svg" 63 2) w
     = (Some (SystemExit "--size must be >= 64"), w)
  /\ main (fun _ => 1%Q) (fun _ => 0%Q) id id (mkArgs "abc123" "out.svg" 64 1) w
     = (Some (SystemExit "--cells must be >= 2"), w)
  /\ main (fun _ => 1%Q) (fun _ => 0%Q) id id (mkArgs "abc123" "out.svg" (10 ^ 400) 2) w
     = (Some OverflowError, w).
Proof.
  cbv zeta. split; [vm_compute; reflexivity|]. split; [reflexivity|].
  split; [reflexivity|]. vm_compute. reflexivity.
Qed.

(* ================================================================== *)
(** * Number formatting in the document *)
(* ================================================================== *)

Local Open Scope string_scope.

Lemma all_digits_uint (d : Decimal.uint) : all_digits (NilEmpty.string_of_uint d) = true.
Proof. induction d; cbn [NilEmpty.string_of_uint all_digits]; try rewrite IHd; reflexivity. Qed.

Lemma str_digits (n : Z) :
  (0 <= n)%Z ->
  exists c r, str n = String c r /\ is_digit c = true /\ all_digits r = true.
Proof.
  intros H. unfold str. destruct n as [|p|p]; [| |lia].
  - exists "0"%char, "". repeat split.
  - cbn [Z.to_int NilZero.string_of_int]. unfold NilZero.string_of_uint.
    pose proof (all_digits_uint (Pos.to_uint p)) as A.
    destruct (Pos.to_uint p) eqn:E;
      [exists "0"%char, ""; repeat split | ..];
      cbn [NilEmpty.string_of_uint all_digits] in A |- *;
      apply andb_true_iff in A; destruct A as [A1 A2]; eauto.
Qed.

Lemma drop_digits_app (d r : string) :
  all_digits d = true -> drop_digits (d ++ String "." r) = String "." r.
Proof.
  induction d as [|c d IH]; intros A.
  - reflexivity.
  - cbn [all_digits] in A. apply andb_true_iff in A. destruct A as [A1 A2].
    cbn [append drop_digits]. rewrite A1. apply IH, A2.
Qed.

Lemma digit_is_digit (d : Z) :
  (0 <= d <= 9)%Z -> exists c, digit d = String c "" /\ is_digit c = true.
Proof.
  intros H. unfold digit. eexists. split; [reflexivity|].
  assert (C : (d = 0 \/ d = 1 \/ d = 2 \/ d = 3 \/ d = 4 \/ d = 5 \/ d = 6
               \/ d = 7 \/ d = 8 \/ d = 9)%Z) by lia.
  repeat (destruct C as [-> | C]; [reflexivity|]). subst d. reflexivity.
Qed.

Lemma hundredths_nonneg (x : Q) : (0 <= hundredths x)%Z.
Proof.
  unfold hundredths. apply FloatFacts.rne_ge_Z.
  change (inject_Z 0) with (0 * 100)%Q.
  apply Qmult_le_compat_r; [apply Qabs_nonneg | discriminate].
Qed.

(** [f] always writes a number with two decimals. *)
Lemma f_two_decimals (x : Q) : two_decimals (f x) = true.
Proof.
  unfold f. cbv zeta.
  pose proof (hundredths_nonneg x) as N. set (n := hundredths x) in *.
  destruct (str_digits (n / 100) ltac:(apply Z.div_pos; lia)) as (c & r & -> & C & R).
  destruct (digit_is_digit (n / 10 mod 10)
              ltac:(pose proof (Z.mod_pos_bound (n / 10) 10); lia)) as (a & -> & A).
  destruct (digit_is_digit (n mod 10)
              ltac:(pose proof (Z.mod_pos_bound n 10); lia)) as (b & -> & B).
  assert (U : unsigned ((if Float.ltb x 0 then "-" else "")
                        ++ String c r ++ "." ++ String a "" ++ String b "")
              = String c (r ++ String "." (String a (String b "")))).
  { destruct (Float.ltb x 0); cbn [append unsigned]; [reflexivity|].
    destruct (Ascii.eqb_spec c "-"); [subst c; discriminate C | reflexivity]. }
  unfold two_decimals. cbv zeta. rewrite U.
  cbn [starts_with_digit drop_digits]. rewrite C.
  rewrite (drop_digits_app _ _ R), A, B. reflexivity.
Qed.

Lemma two_decimals_numeral (s : string) : two_decimals s = true -> is_numeral s = true.
Proof.
  unfold two_decimals, is_numeral. cbv zeta.
  destruct (starts_with_digit (unsigned s)); [|discriminate].
  destruct (drop_digits (unsigned s)) as [|c [|a [|b [|d r]]]]; try discriminate.
  cbn [andb starts_with_digit drop_digits]. intros H.
  apply andb_true_iff in H. destruct H as [H B].
  apply andb_true_iff in H. destruct H as [C A].
  rewrite C, A, B. reflexivity.
Qed.

Lemma drop_all_digits (s : string) : all_digits s = true -> drop_digits s = "".
Proof.
  induction s as [|c s IH]; intros A; [reflexivity|].
  cbn [all_digits] in A. apply andb_true_iff in A. destruct A as [A1 A2].
  cbn [drop_digits]. rewrite A1. apply IH, A2.
Qed.

(** [str] writes a number without decimals. *)
Lemma str_integer (n : Z) : is_numeral (str n) = true /\ two_decimals (str n) = false.
Proof.
  assert (P : forall m, (0 <= m)%Z ->
                unsigned (str m) = str m
                /\ starts_with_digit (str m) = true /\ drop_digits (str m) = "").
  { intros m Hm. destruct (str_digits m Hm) as (c & r & -> & C & R).
    split; [|split].
    - cbn [unsigned]. destruct (Ascii.eqb_spec c "-"); [subst c; discriminate C | reflexivity].
    - exact C.
    - cbn [drop_digits]. rewrite C. apply drop_all_digits, R. }
  assert (U : exists m, (0 <= m)%Z /\ unsigned (str n) = str m).
  { destruct n as [|q|q].
    - exists 0%Z. split; [lia | apply P; lia].
    - exists (Z.pos q). split; [lia | apply P; lia].
    - exists (Z.pos q). split; [lia | reflexivity]. }
  destruct U as (m & Hm & U). destruct (P m Hm) as (_ & S & D).
  unfold is_numeral, two_decimals. cbv zeta. rewrite U, S, D. split; reflexivity.
Qed.

Lemma rgb_text_not_numeral (v : string) : is_rgb_text v -> is_numeral v = false.
Proof. intros [[[r g] b] ->]. reflexivity. Qed.

Ltac by_f := split; [reflexivity | split; [eexists; reflexivity |
  split; [apply two_decimals_numeral, f_two_decimals | apply f_two_decimals]]].
Ltac by_size := split; [reflexivity | split; [reflexivity | apply str_integer]].
Ltac by_rgb H := split; [reflexivity | split; [exact H | apply rgb_text_not_numeral, H]].
Ltac by_text := split; reflexivity.

Lemma part_written (size : Z) (p : part) :
  match p with
  | SvgOpen s | Background s _ => s = size
  | _ => True
  end ->
  match p with
  | Background _ c | GridRect _ _ _ _ c _ | GridCircle _ _ _ c _
  | Ray _ _ _ _ c _ | Anchor _ _ _ c => is_rgb_text c
  | _ => True
  end ->
  part_as_amended size p.
Proof.
  intros Hs Hc. unfold part_as_amended.
  destruct p; cbn [node_of attrs attrs_as_amended]; try subst size0;
    repeat (constructor; [cbn [fst snd written_as];
                          first [ by_f | by_size | by_rgb Hc | by_text ] |]);
    constructor.
Qed.

Lemma build_svg_document (cos sin : Q -> Q) (seed : string) (size cells : Z) (text : string) :
  build_svg cos sin seed size cells = Ok text ->
  text = String.concat newline (map render_node (document cos sin seed size cells))
         ++ newline.
Proof.
  unfold build_svg, document.
  destruct (writable size); [cbn [negb] | discriminate].
  destruct (cells =? 0)%Z; [discriminate|].
  destruct (overflows _ _ _); [discriminate|].
  intros [= <-]. rewrite map_map. reflexivity.
Qed.

(** C7, as amended. [f] writes every number it formats with exactly two
    decimals, and every coordinate, every width and height of a grid
    rectangle, every radius, fill opacity, ray end point and stroke width
    of a scene is written by [f].  The canvas width and height, on the root
    element and on the background rectangle, are the integer size as
    given, a number without decimals; colours are [rgb(r, g, b)] with
    integer channels; the stroke opacity of a ray is the literal 0.8.
    Every part of a scene has these attributes and no other, and the text
    [build_svg] returns is the rendering of these parts. *)
Theorem numbers_formatted (cos sin : Q -> Q) (seed : string) (size cells : Z) :
  (forall x : Q, two_decimals (f x) = true)
  /\ Forall (part_as_amended size) (fst (scene cos sin size cells (make_rng seed)))
  /\ (forall text : string,
        build_svg cos sin seed size cells = Ok text ->
        text = String.concat newline
                 (map render (fst (scene cos sin size cells (make_rng seed))))
               ++ newline).
Proof.
  split; [exact f_two_decimals|]. split.
  - apply scene_Forall.
    + apply part_written; [reflexivity | exact I].
    + apply part_written; [reflexivity | apply post_rgb].
    + intros p [S|S] _ F; destruct p; try discriminate S;
        apply part_written; try exact I; exact F.
    + intros. apply part_written; [exact I | apply post_rgb].
    + intros. apply part_written; [exact I | apply post_rgb].
    + apply part_written; exact I.
  - intros text H. rewrite (build_svg_document _ _ _ _ _ _ H).
    unfold document. rewrite map_map. reflexivity.
Qed.

(** C7 as worded fails: on a 64-pixel canvas the root element carries
    width 64, a number without decimals, whatever the trigonometric
    functions are. *)
Lemma numbers_formatted_counterexample :
  ~ (exists cos sin : Q -> Q, numbers_two_decimal (document cos sin "abc123" 64 2)).
Proof.
  intros (cos & sin & H).
  assert (T : two_decimals "64" = true).
  { apply (H (node_of (SvgOpen 64)) "width" "64").
    - unfold document. rewrite scene_run. cbv zeta. left. reflexivity.
    - right. left. reflexivity.
    - reflexivity. }
  discriminate T.
Qed.

Example stroke_opacity_one_decimal :
  attr "stroke-opacity" (node_of (Ray 0 0 0 0 "" 1)) = Some "0.8"
  /\ is_numeral "0.8" = true /\ two_decimals "0.8" = false.
Proof. repeat split. Qed.

(* ================================================================== *)
(** * The step of the generator is linear and one-to-one *)
(* ================================================================== *)

Local Close Scope string_scope.
Local Close Scope nat_scope.

Lemma lxor_swap (a b c d : Z) :
  Z.lxor (Z.lxor a b) (Z.lxor c d) = Z.lxor (Z.lxor a c) (Z.lxor b d).
Proof.
  apply Z.bits_inj'. intros i _. rewrite !Z.lxor_spec.
  destruct (Z.testbit a i), (Z.testbit b i), (Z.testbit c i), (Z.testbit d i); reflexivity.
Qed.

Lemma shl_step_lxor (a b k : Z) :
  Z.lxor (Z.lxor a b) (Z.land (Z.shiftl (Z.lxor a b) k) MASK32)
  = Z.lxor (Z.lxor a (Z.land (Z.shiftl a k) MASK32))
           (Z.lxor b (Z.land (Z.shiftl b k) MASK32)).
Proof. rewrite Z.shiftl_lxor, land_lxor_distr. apply lxor_swap. Qed.

Lemma shr_step_lxor (a b k : Z) :
  Z.lxor (Z.lxor a b) (Z.shiftr (Z.lxor a b) k)
  = Z.lxor (Z.lxor a (Z.shiftr a k)) (Z.lxor b (Z.shiftr b k)).
Proof. rewrite Z.shiftr_lxor. apply lxor_swap. Qed.

Lemma xorshift_lxor (a b : Z) :
  xorshift (Z.lxor a b) = Z.lxor (xorshift a) (xorshift b).
Proof.
  unfold xorshift. cbv zeta.
  rewrite (shl_step_lxor a b 13).
  set (a1 := Z.lxor a _). set (b1 := Z.lxor b _).
  rewrite (shr_step_lxor a1 b1 17).
  set (a2 := Z.lxor a1 _). set (b2 := Z.lxor b1 _).
  rewrite (shl_step_lxor a2 b2 5). apply land_lxor_distr.
Qed.

Lemma xorshift_injective (a b : Z) :
  u32 a -> u32 b -> a <> b -> xorshift a <> xorshift b.
Proof.
  intros Ha Hb Hab E.
  assert (Z0 : xorshift (Z.lxor a b) = 0).
  { rewrite xorshift_lxor, E. apply Z.lxor_nilpotent. }
  apply (xorshift_nonzero (Z.lxor a b)); [apply lxor_u32; assumption | | exact Z0].
  intros X. apply Z.lxor_eq in X. contradiction.
Qed.

(** X1. The state update of [next_u32] is linear over XOR, it is
    one-to-one on 32-bit states, and zero is the only state it sends to
    zero. *)
Theorem xorshift_permutation :
  (forall a b : Z, xorshift (Z.lxor a b) = Z.lxor (xorshift a) (xorshift b))
  /\ (forall a b : Z, u32 a -> u32 b -> xorshift a = xorshift b -> a = b)
  /\ (forall a : Z, u32 a -> (xorshift a = 0 <-> a = 0)).
Proof.
  split; [exact xorshift_lxor|]. split.
  - intros a b Ha Hb E. destruct (Z.eq_dec a b) as [e|n]; [exact e|].
    exfalso. exact (xorshift_injective a b Ha Hb n E).
  - intros a Ha. split.
    + intros E. destruct (Z.eq_dec a 0) as [e|n]; [exact e|].
      exfalso. exact (xorshift_nonzero a Ha n E).
    + intros ->. reflexivity.
Qed.

(** X2. Two generators in different states never come to the same state,
    and at every position of their streams they give different numbers. *)
Theorem streams_never_merge (g g' : Gen) (n : nat) :
  u32 (state g) -> u32 (state g') -> state g <> state g' ->
  state (after_draws n g) <> state (after_draws n g')
  /\ fst (next_u32 (after_draws n g)) <> fst (next_u32 (after_draws n g')).
Proof.
  intros U U' D.
  assert (I : forall k, u32 (state (after_draws k g)) /\ u32 (state (after_draws k g'))
                        /\ state (after_draws k g) <> state (after_draws k g')).
  { induction k as [|k (A & B & C)]; [tauto|].
    rewrite !after_draws_S. cbn [next_u32 snd state].
    split; [apply xorshift_u32, A|]. split; [apply xorshift_u32, B|].
    apply xorshift_injective; assumption. }
  destruct (I n) as (A & B & C). split; [exact C|].
  cbn [next_u32 fst]. apply xorshift_injective; assumption.
Qed.

Lemma streams_never_merge_witness :
  state (make_rng "abc123") <> state (make_rng "abc124")
  /\ fst (next_u32 (after_draws 7 (make_rng "abc123")))
     <> fst (next_u32 (after_draws 7 (make_rng "abc124"))).
Proof.
  assert (D : state (make_rng "abc123") <> state (make_rng "abc124"))
    by (vm_compute; discriminate).
  split; [exact D|].
  exact (proj2 (streams_never_merge (make_rng "abc123") (make_rng "abc124") 7
                  (proj1 (make_rng_state "abc123")) (proj1 (make_rng_state "abc124")) D)).
Defined.

(* ================================================================== *)
(** * The channels of a colour *)
(* ================================================================== *)

(** X5. Whatever the draws, every channel [rgb] writes lies within 0 and
    255 and is at least the channel drawn; without the flag, or with a
    drawn sum of 180 or more, the channels are the drawn ones; with the
    flag the written sum is at least 180; and three draws are made. *)
Theorem rgb_channels_range (brighten : bool) (g : Gen) :
  let '(r0, g0, b0) := drawn_rgb g in
  let '(r, gc, b) := fst (rgb_channels brighten g) in
  (0 <= r0 <= r /\ r <= 255) /\ (0 <= g0 <= gc /\ gc <= 255) /\ (0 <= b0 <= b /\ b <= 255)
  /\ (brighten = false -> (r, gc, b) = (r0, g0, b0))
  /\ (180 <= r0 + g0 + b0 -> (r, gc, b) = (r0, g0, b0))
  /\ (brighten = true -> 180 <= r + gc + b)
  /\ snd (rgb_channels brighten g) = after_draws 3 g.
Proof.
  pose proof (drawn_rgb_range g) as R. pose proof (rgb_channels_true g) as T.
  pose proof (uses_rgb_channels brighten g) as U.
  destruct brighten.
  - destruct (drawn_rgb g) as [[r0 g0] b0]. cbv zeta in T.
    destruct (fst (rgb_channels true g)) as [[r gc] b].
    destruct R as (Hr & Hg & Hb).
    destruct (Z.ltb_spec (r0 + g0 + b0) 180) as [S|S].
    + pose proof (brighten_rgb_bounds r0 g0 b0 Hr Hg Hb S) as B.
      rewrite <- T in B. unfold brighten_rgb in T. injection T as -> -> ->.
      pose proof (Z.div_pos (180 - (r0 + g0 + b0)) 3 ltac:(lia) ltac:(lia)).
      repeat split; try lia; try discriminate; tauto.
    + injection T as -> -> ->.
      repeat split; try lia; try discriminate; try reflexivity; exact U.
  - unfold drawn_rgb in *. destruct (fst (rgb_channels false g)) as [[r0 g0] b0].
    destruct R as (Hr & Hg & Hb). repeat split; try lia; try discriminate; try reflexivity; exact U.
Qed.

(* ================================================================== *)
(** * The value of [rand01] and the skip check *)
(* ================================================================== *)

Local Open Scope Q_scope.

Lemma rand01_exact (g : Gen) :
  fst (rand01 g) == inject_Z (fst (next_u32 g)) / 4294967296.
Proof.
  unfold rand01. rewrite bind_run. cbn [ret fst].
  set (u := fst (next_u32 g)).
  assert (U : u32 u) by apply post_next_u32.
  assert (A : (Z.abs u < 2 ^ 53)%Z) by (unfold u32 in U; lia).
  unfold Float.div.
  rewrite (FloatExact.fl_Qeq (Float.of_int u / 4294967296) (inject_Z u * 2 ^ (-32))).
  - rewrite FloatExact.fl_exact by (unfold Float.emin; lia).
    change (2 ^ (-32)) with (/ 4294967296). reflexivity.
  - rewrite (FloatExact.of_int_exact u A). change (2 ^ (-32)) with (/ 4294967296). reflexivity.
Qed.

(** X3. [rand01] returns the drawn number over [2^32] exactly: neither the
    conversion to a float nor the division rounds, so different draws give
    different values. *)
Theorem rand01_keeps_draw (g g' : Gen) :
  fst (rand01 g) == inject_Z (fst (next_u32 g)) / 4294967296
  /\ (fst (rand01 g) == fst (rand01 g') -> fst (next_u32 g) = fst (next_u32 g')).
Proof.
  split; [apply rand01_exact|]. rewrite !rand01_exact. intros E.
  apply inject_Z_injective. unfold Qdiv in E.
  apply (Qmult_inj_r _ _ (/ 4294967296)); [discriminate | exact E].
Qed.

Lemma skip_test (g : Gen) :
  Float.ltb (fst (rand01 g)) (lit 0.15) = true <-> (fst (next_u32 g) <= skip_max)%Z.
Proof.
  rewrite FloatExact.ltb_lt, rand01_exact. set (u := fst (next_u32 g)).
  assert (C1 : inject_Z skip_max / 4294967296 < lit 0.15) by (vm_compute; reflexivity).
  assert (C2 : lit 0.15 < inject_Z (skip_max + 1) / 4294967296) by (vm_compute; reflexivity).
  split; intros H.
  - destruct (Z_le_gt_dec u skip_max) as [L|G]; [exact L|exfalso].
    assert (inject_Z (skip_max + 1) <= inject_Z u) by (rewrite <- Zle_Qle; lia).
    assert (inject_Z (skip_max + 1) / 4294967296 <= inject_Z u / 4294967296).
    { unfold Qdiv. apply Qmult_le_compat_r; [assumption | discriminate]. }
    lra.
  - assert (inject_Z u <= inject_Z skip_max) by (rewrite <- Zle_Qle; exact H).
    assert (inject_Z u / 4294967296 <= inject_Z skip_max / 4294967296).
    { unfold Qdiv. apply Qmult_le_compat_r; [assumption | discriminate]. }
    lra.
Qed.

(** X4. A cell of the grid is skipped exactly when its first draw is at
    most 644245094, the largest number whose quotient by [2^32] is below
    the float 0.15; a skipped cell makes that one draw and no other. *)
Theorem cell_skipped_iff (cell : Q) (gy gx : Z) (g : Gen) :
  (fst (grid_cell cell gy gx g) = None <-> (fst (next_u32 g) <= skip_max)%Z)
  /\ (fst (grid_cell cell gy gx g) = None -> snd (grid_cell cell gy gx g) = after_draws 1 g).
Proof.
  pose proof (skip_test g) as T.
  pose proof (costs_0 _ _ (grid_cell_costs cell gy gx) g) as C.
  assert (R : fst (grid_cell cell gy gx g) = None
              <-> Float.ltb (fst (rand01 g)) (lit 0.15) = true).
  { unfold grid_cell. rewrite bind_run.
    destruct (Float.ltb (fst (rand01 g)) (lit 0.15)).
    - cbn [ret fst]. tauto.
    - rewrite !bind_run. destruct (_ =? 0)%Z; rewrite !bind_run; cbn [ret fst];
        split; intros; discriminate. }
  split; [rewrite R; exact T|]. intros E. rewrite E in C. exact C.
Qed.

(* ================================================================== *)
(** * Where the grid puts its shapes *)
(* ================================================================== *)

(** Where a cell puts the centre of its shape, as a fraction of the cell. *)
Lemma centre_factor_range (j : Q) :
  0 <= j <= rmax ->
  lit 0.25 <= lit 0.5 +! (j -! lit 0.5) *! lit 0.5 <= lit 0.75.
Proof.
  intros [A0 A1]. split.
  - apply (Qle_trans _ (lit 0.5 +! (0 -! lit 0.5) *! lit 0.5)); [qle_compute|].
    apply FloatFacts.add_le; [apply Qle_refl|].
    apply FloatFacts.mul_le_r; [qle_compute|].
    apply FloatFacts.sub_le; [exact A0 | apply Qle_refl].
  - apply (Qle_trans _ (lit 0.5 +! (rmax -! lit 0.5) *! lit 0.5)); [|qle_compute].
    apply FloatFacts.add_le; [apply Qle_refl|].
    apply FloatFacts.mul_le_r; [qle_compute|].
    apply FloatFacts.sub_le; [exact A1 | apply Qle_refl].
Qed.

(** The side of a rectangle, as a fraction of the cell. *)
Lemma side_factor_range (a : Q) :
  0 <= a <= rmax -> lit 0.25 <= lit 0.25 +! a *! lit 0.7 <= lit 0.95.
Proof.
  intros [A0 A1]. split.
  - apply (Qle_trans _ (lit 0.25 +! 0 *! lit 0.7)); [qle_compute|].
    apply FloatFacts.add_le; [apply Qle_refl|].
    apply FloatFacts.mul_le_r; [qle_compute | exact A0].
  - apply (Qle_trans _ (lit 0.25 +! rmax *! lit 0.7)); [|qle_compute].
    apply FloatFacts.add_le; [apply Qle_refl|].
    apply FloatFacts.mul_le_r; [qle_compute | exact A1].
Qed.

Lemma centre_range (cell x0 j : Q) :
  0 <= cell -> 0 <= j <= rmax ->
  x0 +! cell *! lit 0.25
  <= x0 +! cell *! (lit 0.5 +! (j -! lit 0.5) *! lit 0.5)
  <= x0 +! cell *! lit 0.75.
Proof.
  intros C J. pose proof (centre_factor_range j J) as [L H].
  split; (apply FloatFacts.add_le; [apply Qle_refl|]); apply FloatFacts.mul_le_l; assumption.
Qed.

Lemma grid_cell_placed (cell : Q) (gy gx : Z) :
  0 <= cell ->
  post (grid_cell cell gy gx)
       (fun o => match o with Some p => placed_in_cell cell gy gx p | None => True end).
Proof.
  intros C. unfold grid_cell.
  eapply post_bind; [apply post_any | intros p _].
  destruct (Float.ltb _ _); [apply post_ret; exact I|].
  eapply post_bind; [exact rand01_range | intros jx Hx].
  eapply post_bind; [exact rand01_range | intros jy Hy].
  eapply post_bind; [apply post_any | intros col _].
  eapply post_bind; [apply post_any | intros a _].
  eapply post_bind; [apply post_any | intros k _].
  assert (M : in_middle_half cell gy gx
                (Float.of_int gx *! cell +! cell *! (lit 0.5 +! (jx -! lit 0.5) *! lit 0.5))
                (Float.of_int gy *! cell +! cell *! (lit 0.5 +! (jy -! lit 0.5) *! lit 0.5))).
  { split; apply centre_range; assumption. }
  destruct (_ =? 0)%Z.
  - eapply post_bind; [exact rand01_range | intros rw Hw].
    eapply post_bind; [exact rand01_range | intros rh Hh].
    apply post_ret. unfold placed_in_cell.
    pose proof (side_factor_range rw Hw) as [W0 W1].
    pose proof (side_factor_range rh Hh) as [H0 H1].
    split; [split; apply FloatFacts.mul_le_l; assumption|].
    split; [split; apply FloatFacts.mul_le_l; assumption|].
    eexists. eexists. split; [exact M|]. split; reflexivity.
  - eapply post_bind; [apply post_any | intros rr _].
    apply post_ret. exact M.
Qed.

(** X6. On a cell size that is not negative, every shape of the grid
    belongs to a cell [gy], [gx] of the grid and lies where the cell puts
    it: the centre within the middle half of the cell along each axis, the
    sides of a rectangle between 25% and 95% of the cell size. *)
Theorem grid_shapes_placed (cell : Q) (cells : Z) (g : Gen) :
  0 <= cell ->
  Forall (fun p => exists gy gx : Z,
            (0 <= gy < cells)%Z /\ (0 <= gx < cells)%Z /\ placed_in_cell cell gy gx p)
         (fst (grid cell cells g)).
Proof.
  intros C. rewrite grid_unfold. unfold range.
  eapply Forall_impl; [|apply (for_range_Forall_at
    (fun gy p => exists gx : Z, (0 <= gx < cells)%Z /\ placed_in_cell cell gy gx p))].
  - intros p (gy & Hy & gx & Hx & P). exists gy, gx. repeat split; try lia; exact P.
  - intros gy g1.
    eapply Forall_impl; [|apply (for_range_Forall_at (fun gx p => placed_in_cell cell gy gx p))].
    + intros p (gx & Hx & P). exists gx. split; [lia | exact P].
    + intros gx g2. unfold grid_cell_parts. rewrite bind_run. cbn [ret fst].
      pose proof (grid_cell_placed cell gy gx C g2) as P.
      destruct (fst (grid_cell cell gy gx g2)); constructor; [exact P | constructor].
Qed.

Lemma grid_shapes_placed_witness :
  0 <= int_div 64 2
  /\ Forall (fun p => exists gy gx : Z,
               (0 <= gy < 2)%Z /\ (0 <= gx < 2)%Z /\ placed_in_cell (int_div 64 2) gy gx p)
            (fst (grid (int_div 64 2) 2 (after_draws 3 (make_rng "abc123")))).
Proof.
  assert (H : 0 <= int_div 64 2) by qle_compute.
  split; [exact H|].
  exact (grid_shapes_placed (int_div 64 2) 2 (after_draws 3 (make_rng "abc123")) H).
Defined.

(* ================================================================== *)
(** * The rays stay on the canvas *)
(* ================================================================== *)

Lemma scaled (size k : Z) (e : Z) (d : Q) :
  2 ^ e == d -> inject_Z (k * size) * 2 ^ e == inject_Z size * (inject_Z k * d).
Proof. intros <-. rewrite inject_Z_mult. ring. Qed.

Section Rays.

Variable size : Z.
Hypothesis size_range : (0 <= size < 2 ^ 48)%Z.

Let s : Q := inject_Z size.

Lemma s_nonneg : 0 <= s.
Proof. unfold s. change 0 with (inject_Z 0). rewrite <- Zle_Qle. lia. Qed.

Lemma of_int_size : Float.of_int size == s.
Proof. apply FloatExact.of_int_exact. lia. Qed.

Lemma centre_exact : int_div size 2 == s * (1 # 2).
Proof.
  unfold int_div.
  rewrite (FloatExact.fl_Qeq _ (inject_Z size * 2 ^ (-1))) by (change (2 ^ (-1)) with (1 # 2); field).
  rewrite FloatExact.fl_exact by (unfold Float.emin; lia). reflexivity.
Qed.

(** A product of the canvas size and a factor of at most [k / 2^j]. *)
Lemma size_times (c : Q) (k j : Z) :
  (0 <= k < 32)%Z -> (0 <= j <= 5)%Z ->
  0 <= c <= inject_Z k * 2 ^ (- j) ->
  0 <= Float.of_int size *! c <= s * (inject_Z k * 2 ^ (- j)).
Proof.
  intros K J [C0 C1]. pose proof s_nonneg as S0.
  assert (B : 0 <= Float.of_int size * c <= inject_Z (k * size) * 2 ^ (- j)).
  { rewrite of_int_size, (scaled size k (- j) _ (Qeq_refl _)). fold s. split.
    - apply Qmult_le_0_compat; assumption.
    - rewrite !(Qmult_comm s). apply Qmult_le_compat_r; assumption. }
  destruct (FloatExact.fl_between (Float.of_int size * c) 0 (k * size) (- j)) as [L H].
  - vm_compute. reflexivity.
  - rewrite Z.abs_eq by nia. assert (k * size <= 31 * 2 ^ 48)%Z by nia.
    assert (31 * 2 ^ 48 < 2 ^ 53)%Z by (vm_compute; reflexivity). lia.
  - unfold Float.emin. lia.
  - split; [|exact (proj2 B)]. rewrite Qmult_0_l. exact (proj1 B).
  - rewrite Qmult_0_l in L. split; [exact L|].
    rewrite (scaled size k (- j) _ (Qeq_refl _)) in H. exact H.
Qed.


(** A point at a distance of at most [k / 32] of the canvas from its
    centre, along an axis, with [k] at most 15. *)
Lemma offset_range (c0 r c : Q) (k : Z) :
  (0 <= k <= 15)%Z ->
  c0 == s * (1 # 2) ->
  0 <= r <= s * (inject_Z k * 2 ^ (-5)) ->
  -1 <= c <= 1 ->
  s * (inject_Z (16 - k) * 2 ^ (-5)) <= c0 +! r *! c <= s * (inject_Z (16 + k) * 2 ^ (-5)).
Proof.
  intros K C0 [R0 R1] [C1 C2]. pose proof s_nonneg as S0. unfold s in *.
  rewrite <- (scaled size k (-5) _ (Qeq_refl _)) in R1.
  rewrite <- !(scaled size _ (-5) _ (Qeq_refl _)).
  assert (A : (forall z, - 15 * size <= z <= 31 * size -> Z.abs z < 2 ^ 53)%Z).
  { intros z Hz. assert (31 * 2 ^ 48 < 2 ^ 53)%Z by (vm_compute; reflexivity). lia. }
  assert (E : (Float.emin <= -5)%Z) by (unfold Float.emin; lia).
  assert (T : inject_Z (- (k * size)) * 2 ^ (-5) <= r *! c <= inject_Z (k * size) * 2 ^ (-5)).
  { apply FloatExact.fl_between; [apply A; nia | apply A; nia | exact E |].
    assert (U : r * c <= r * 1)
      by (rewrite (Qmult_comm r c), (Qmult_comm r 1); apply Qmult_le_compat_r; assumption).
    assert (L : r * -1 <= r * c)
      by (rewrite (Qmult_comm r c), (Qmult_comm r (-1)); apply Qmult_le_compat_r; assumption).
    rewrite inject_Z_opp. split; lra. }
  apply FloatExact.fl_between; [apply A; nia | apply A; nia | exact E |].
  rewrite C0.
  replace ((16 - k) * size)%Z with (16 * size + - (k * size))%Z by ring.
  replace ((16 + k) * size)%Z with (16 * size + k * size)%Z by ring.
  rewrite !inject_Z_plus, (inject_Z_mult 16 size).
  change (2 ^ (-5)) with (1 # 32) in *. change (inject_Z 16) with 16.
  destruct T as [T0 T1]. split; lra.
Qed.

Lemma inner_range : 0 <= Float.of_int size *! lit 0.06 <= s * (inject_Z 4 * 2 ^ (-5)).
Proof.
  destruct (size_times (lit 0.06) 1 3) as [L H]; try lia.
  - split; qle_compute.
  - split; [exact L|]. eapply Qle_trans; [exact H|].
    setoid_replace (inject_Z 1 * 2 ^ (-3)) with (inject_Z 4 * 2 ^ (-5)) by reflexivity.
    apply Qle_refl.
Qed.

Lemma outer_range (v : Q) :
  lit 0.8 <= v <= lit 1.2 ->
  0 <= (Float.of_int size *! lit 0.32) *! v <= s * (inject_Z 15 * 2 ^ (-5)).
Proof.
  intros [V0 V1]. pose proof s_nonneg as S0.
  destruct (size_times (lit 0.32) 3 3) as [L H]; try lia; [split; qle_compute|].
  unfold s in *.
  assert (V2 : 0 <= v) by (eapply Qle_trans; [|exact V0]; qle_compute).
  assert (V3 : v <= 5 # 4) by (eapply Qle_trans; [exact V1|]; qle_compute).
  set (o := Float.of_int size *! lit 0.32) in *.
  rewrite <- (scaled size 15 (-5) _ (Qeq_refl _)).
  destruct (FloatExact.fl_between (o * v) 0 (15 * size) (-5)) as [L' H'].
  - vm_compute. reflexivity.
  - assert (31 * 2 ^ 48 < 2 ^ 53)%Z by (vm_compute; reflexivity). lia.
  - unfold Float.emin. lia.
  - rewrite Qmult_0_l. split; [apply Qmult_le_0_compat; assumption|].
    rewrite (scaled size 15 (-5) _ (Qeq_refl _)).
    apply (Qle_trans _ (inject_Z size * (inject_Z 3 * 2 ^ (-3)) * (5 # 4))).
    + apply (Qle_trans _ (o * (5 # 4))).
      * rewrite !(Qmult_comm o). apply Qmult_le_compat_r; assumption.
      * apply Qmult_le_compat_r; [exact H | discriminate].
    + change (2 ^ (-3)) with (1 # 8). change (2 ^ (-5)) with (1 # 32).
      change (inject_Z 3) with 3. change (inject_Z 15) with 15. lra.
  - rewrite Qmult_0_l in L'. split; [exact L' | exact H'].
Qed.

End Rays.

(** X12. With a cosine and a sine between -1 and 1 and a canvas size from
    0 to below [2^48], every part of the motif is a ray line whose ends lie
    on the canvas: the near end within an eighth of the canvas of its
    centre along each axis, the far end at least a thirty-second of the
    canvas inside the border. *)
Theorem rays_inside_canvas (cos sin : Q -> Q) (size : Z) (g : Gen) :
  (forall a, -1 <= cos a <= 1) -> (forall a, -1 <= sin a <= 1) ->
  (0 <= size < 2 ^ 48)%Z ->
  Forall (ray_within size) (fst (motif cos sin size g)).
Proof.
  intros Hc Hs Hz. destruct (motif_run cos sin size g) as [E _]. cbv zeta in E.
  rewrite E. apply Forall_forall. intros p Hp.
  apply in_map_iff in Hp. destruct Hp as (t & <- & _).
  rewrite ray_run. cbv zeta. unfold ray_within. cbv zeta.
  pose proof (centre_exact size Hz) as C.
  pose proof (inner_range size Hz) as I.
  pose proof (outer_range size Hz _
                (length_factor_range _ (rand01_range (after_draws 1 (after_draws (6 * t) g)))))
    as O.
  unfold ray_length_factor.
  set (ang := _ +! ray_jitter _).
  pose proof (offset_range size Hz _ _ (cos ang) 4 ltac:(lia) C I (Hc ang)) as X1.
  pose proof (offset_range size Hz _ _ (sin ang) 4 ltac:(lia) C I (Hs ang)) as Y1.
  pose proof (offset_range size Hz _ _ (cos ang) 15 ltac:(lia) C O (Hc ang)) as X2.
  pose proof (offset_range size Hz _ _ (sin ang) 15 ltac:(lia) C O (Hs ang)) as Y2.
  change (inject_Z (16 - 4) * 2 ^ (-5)) with (12 # 32) in X1, Y1.
  change (inject_Z (16 + 4) * 2 ^ (-5)) with (20 # 32) in X1, Y1.
  change (inject_Z (16 - 15) * 2 ^ (-5)) with (1 # 32) in X2, Y2.
  change (inject_Z (16 + 15) * 2 ^ (-5)) with (31 # 32) in X2, Y2.
  setoid_replace (3 # 8) with (12 # 32) by reflexivity.
  setoid_replace (5 # 8) with (20 # 32) by reflexivity.
  tauto.
Qed.

Lemma rays_inside_canvas_witness :
  (0 <= 64 < 2 ^ 48)%Z
  /\ Forall (ray_within 64)
            (fst (motif (fun _ => 1) (fun _ => 0) 64 (make_rng "abc123"))).
Proof.
  assert (Hz : (0 <= 64 < 2 ^ 48)%Z) by (vm_compute; split; [discriminate | reflexivity]).
  split; [exact Hz|].
  apply (rays_inside_canvas (fun _ => 1) (fun _ => 0) 64 (make_rng "abc123")).
  - intros _. split; discriminate.
  - intros _. split; discriminate.
  - exact Hz.
Defined.

Local Close Scope Q_scope.

(* ================================================================== *)
(** * The layout of the scene and the draws it makes *)
(* ================================================================== *)

Local Open Scope nat_scope.

Lemma bind_snd {A B : Type} (m : M A) (k : A -> M B) (g : Gen) :
  snd (bind m k g) = snd (k (fst (m g)) (snd (m g))).
Proof. rewrite bind_run. reflexivity. Qed.

Lemma snd_ret {A : Type} (a : A) (g : Gen) : snd (ret a g) = g.
Proof. reflexivity. Qed.

Lemma scene_after (cos sin : Q -> Q) (size cells : Z) (g : Gen) :
  snd (scene cos sin size cells g)
  = after_draws 3 (after_draws 240 (snd (grid (int_div size cells) cells (after_draws 3 g)))).
Proof.
  unfold scene.
  rewrite bind_snd, bind_snd, bind_snd, bind_snd.
  rewrite snd_ret.
  rewrite (uses_rgb true _).
  destruct (motif_run cos sin size
              (snd (grid (int_div size cells) cells (snd (rgb false g))))) as [_ E].
  rewrite E.
  rewrite (uses_rgb false g).
  reflexivity.
Qed.


(** X7. A scene makes 3 draws for the background, one for every cell of
    the grid, 9 more for every rectangle and 8 more for every circle, 240
    for the rays and 3 for the anchor: between [246 + n * n] and
    [246 + 10 * n * n] in all, for a grid of [n] by [n] cells. *)
Theorem scene_draws (cos sin : Q -> Q) (size cells : Z) (g : Gen) :
  let shapes := fst (grid (int_div size cells) cells (after_draws 3 g)) in
  let n := Z.to_nat cells in
  snd (scene cos sin size cells g)
  = after_draws (3 + (1 * (n * n) + 9 * rects shapes + 8 * circles shapes) + 40 * 6 + 3) g
  /\ 246 + n * n <= draws (snd (scene cos sin size cells g)) - draws g <= 246 + 10 * (n * n).
Proof.
  cbv zeta.
  assert (E : snd (scene cos sin size cells g)
              = after_draws (3 + (1 * (Z.to_nat cells * Z.to_nat cells)
                      + 9 * rects (fst (grid (int_div size cells) cells (after_draws 3 g)))
                      + 8 * circles (fst (grid (int_div size cells) cells (after_draws 3 g))))
                      + 40 * 6 + 3) g).
  { rewrite scene_after, grid_after, !after_draws_add. f_equal. lia. }
  split; [exact E|]. rewrite E, after_draws_draws.
  set (shapes := fst (grid (int_div size cells) cells (after_draws 3 g))).
  assert (S : Forall grid_shape shapes).
  { eapply Forall_impl; [|apply grid_ok]. intros p [S _]. exact S. }
  pose proof (grid_shapes_count _ S) as K.
  pose proof (grid_length (int_div size cells) cells (after_draws 3 g)) as L.
  fold shapes in L. lia.
Qed.

(** X8. The parts of a scene come in a fixed order: the root element, the
    background, the shapes of the grid (at most one for each cell, none
    when the cell count is not positive), 40 ray lines, the anchor circle
    and the closing tag. *)
Theorem scene_layout (cos sin : Q -> Q) (size cells : Z) (g : Gen) :
  let shapes := fst (grid (int_div size cells) cells (after_draws 3 g)) in
  exists (bg : string) (lines : list part) (anchor : part),
    fst (scene cos sin size cells g)
    = SvgOpen size :: Background size bg :: shapes ++ lines ++ [anchor; SvgClose]
    /\ Forall grid_shape shapes
    /\ List.length shapes <= Z.to_nat cells * Z.to_nat cells
    /\ ((cells <= 0)%Z -> shapes = [])
    /\ List.length lines = 40 /\ Forall (fun p => is_ray p = true) lines
    /\ is_anchor anchor = true
    /\ List.length (fst (scene cos sin size cells g)) = 44 + List.length shapes.
Proof.
  cbv zeta. rewrite scene_run. cbv zeta.
  set (g1 := after_draws 3 g).
  set (shapes := fst (grid (int_div size cells) cells g1)).
  set (g2 := snd (grid (int_div size cells) cells g1)).
  assert (L40 : List.length (fst (motif cos sin size g2)) = 40).
  { destruct (motif_run cos sin size g2) as [E _]. cbv zeta in E.
    rewrite E, length_map, length_seq. reflexivity. }
  eexists. exists (fst (motif cos sin size g2)). eexists.
  split; [reflexivity|].
  split; [eapply Forall_impl; [|apply grid_ok]; intros p [S _]; exact S|].
  split; [apply grid_length|].
  split.
  { intros C. unfold shapes. rewrite grid_unfold. unfold range.
    replace (Z.to_nat cells) with 0 by lia. reflexivity. }
  split; [exact L40|]. split.
  { apply Forall_forall. intros p Hp.
    destruct (motif_parts _ _ _ _ _ Hp) as (x1 & y1 & x2 & y2 & gi & ->). reflexivity. }
  split; [reflexivity|].
  cbn [app List.length]. rewrite !length_app, L40. cbn [List.length]. lia.
Qed.

(* ================================================================== *)
(** * The lines of the text *)
(* ================================================================== *)

Local Open Scope string_scope.













(* ================================================================== *)
(** * The numbers [f] writes *)
(* ================================================================== *)

Local Close Scope nat_scope.

Lemma read_int_str (n : Z) : read_int (str n) = Some n.
Proof.
  unfold read_int, str. rewrite NilZero.isi.
  - cbn [option_map]. rewrite DecimalZ.of_to. reflexivity.
  - destruct n; cbn [Z.to_int]; try discriminate.
    intros [= E]. revert E. apply DecimalPos.Unsigned.to_uint_nonnil.
  - destruct n; cbn [Z.to_int]; try discriminate.
    intros [= E]. revert E. apply DecimalPos.Unsigned.to_uint_nonnil.
Qed.

Lemma split_dot_app (d t : string) :
  all_digits d = true -> split_dot (d ++ String "." t) = Some (d, t).
Proof.
  induction d as [|c d IH]; intros A.
  - reflexivity.
  - cbn [all_digits] in A. apply andb_true_iff in A. destruct A as [A1 A2].
    cbn [append split_dot].
    destruct (Ascii.eqb_spec c "."); [subst c; discriminate A1|].
    rewrite (IH A2). reflexivity.
Qed.

Lemma digit_val_digit (d : Z) :
  0 <= d <= 9 ->
  exists c, digit d = String c "" /\ is_digit c = true /\ digit_val c = d.
Proof.
  intros H. unfold digit. eexists. split; [reflexivity|].
  assert (C : d = 0 \/ d = 1 \/ d = 2 \/ d = 3 \/ d = 4 \/ d = 5 \/ d = 6
              \/ d = 7 \/ d = 8 \/ d = 9) by lia.
  repeat (destruct C as [-> | C]; [split; reflexivity|]). subst d. split; reflexivity.
Qed.

Lemma f_reads_back_finite (x : Q) :
  read_f (f x) = Some (Float.ltb x 0, hundredths x)
  /\ (Qabs (inject_Z (hundredths x) - Qabs x * 100) <= 1 # 2)%Q.
Proof.
  split; [|apply FloatExact.rne_error].
  unfold f. cbv zeta.
  pose proof (hundredths_nonneg x) as N. set (n := hundredths x) in *.
  assert (I : read_int (str (n / 100)) = Some (n / 100)) by apply read_int_str.
  destruct (str_digits (n / 100) ltac:(apply Z.div_pos; lia)) as (c & r & E & C & R).
  rewrite E in I |- *.
  destruct (digit_val_digit (n / 10 mod 10)
              ltac:(pose proof (Z.mod_pos_bound (n / 10) 10); lia)) as (a & -> & A & VA).
  destruct (digit_val_digit (n mod 10)
              ltac:(pose proof (Z.mod_pos_bound n 10); lia)) as (b & -> & B & VB).
  assert (Cm : Ascii.eqb c "-" = false).
  { destruct (Ascii.eqb_spec c "-"); [subst c; discriminate C | reflexivity]. }
  assert (D : all_digits (String c r) = true) by (cbn [all_digits]; rewrite C, R; reflexivity).
  assert (V : n / 100 * 100 + digit_val a * 10 + digit_val b = n).
  { rewrite VA, VB.
    pose proof (Z.div_mod n 10 ltac:(lia)).
    pose proof (Z.div_mod (n / 10) 10 ltac:(lia)).
    assert (Hd : n / 100 = n / 10 / 10) by (rewrite Z.div_div by lia; reflexivity).
    rewrite Hd. lia. }
  unfold read_f. cbv zeta.
  destruct (Float.ltb x 0); cbn [append unsigned Ascii.eqb Bool.eqb].
  - change (String c (r ++ String "." (String a (String b ""))))
      with (String c r ++ String "." (String a (String b ""))).
    rewrite (split_dot_app _ _ D), I, A, B. cbn [andb]. rewrite V. reflexivity.
  - rewrite Cm.
    change (String c (r ++ String "." (String a (String b ""))))
      with (String c r ++ String "." (String a (String b ""))).
    rewrite (split_dot_app _ _ D), I, A, B. cbn [andb]. rewrite V. reflexivity.
Qed.

(** X9. On a finite float the text [f] writes reads back as a number with
    two decimals: its sign, present exactly when the value is below zero
    or is the negative zero, and its magnitude in hundredths, which is
    within half a hundredth of the magnitude of the value.  An infinity and
    a NaN are written as words, which do not read as a number. *)
Theorem f_reads_back (v : pyfloat) :
  match v with
  | Finite x =>
      read_f (f_float v) = Some (Float.ltb x 0, hundredths x)
      /\ (Qabs (inject_Z (hundredths x) - Qabs x * 100) <= 1 # 2)%Q
  | NegZero => read_f (f_float v) = Some (true, 0)
  | Infinity _ | NaN => read_f (f_float v) = None /\ is_numeral (f_float v) = false
  end.
Proof.
  destruct v as [x| |[|]|]; cbn [f_float].
  - apply f_reads_back_finite.
  - reflexivity.
  - split; reflexivity.
  - split; reflexivity.
  - split; reflexivity.
Qed.

Lemma hundredths_int (x : Q) (n : Z) :
  (x == inject_Z n)%Q -> hundredths x = Z.abs n * 100.
Proof.
  intros E. unfold hundredths.
  rewrite (FloatExact.rne_Qeq _ (inject_Z (Z.abs n * 100))); [apply FloatFacts.rne_Z|].
  rewrite E, inject_Z_mult. apply Qmult_comp; [|reflexivity].
  destruct (Z.le_gt_cases 0 n) as [P|N].
  - rewrite Qabs_pos by (change 0%Q with (inject_Z 0); rewrite <- Zle_Qle; exact P).
    rewrite Z.abs_eq by exact P. reflexivity.
  - rewrite Qabs_neg by (change 0%Q with (inject_Z 0); rewrite <- Zle_Qle; lia).
    rewrite Z.abs_neq by lia. rewrite inject_Z_opp. reflexivity.
Qed.

(** X10. A whole number below [2^53] in magnitude is written as its
    decimal digits, with its sign, and [.00] after them. *)
Theorem f_of_int (n : Z) :
  Z.abs n < 2 ^ 53 -> f (Float.of_int n) = str n ++ ".00".
Proof.
  intros H. pose proof (FloatExact.of_int_exact n H) as E.
  unfold f. cbv zeta. rewrite (hundredths_int _ n E).
  replace (Z.abs n * 100 / 100) with (Z.abs n) by (rewrite Z.div_mul; lia).
  replace (Z.abs n * 100 / 10 mod 10) with 0.
  2:{ replace (Z.abs n * 100) with (Z.abs n * 10 * 10) by ring.
      rewrite Z.div_mul by lia. rewrite Z.mul_comm, Z.mul_comm, Z_mod_mult. reflexivity. }
  replace (Z.abs n * 100 mod 10) with 0.
  2:{ replace (Z.abs n * 100) with (Z.abs n * 10 * 10) by ring.
      rewrite Z_mod_mult. reflexivity. }
  destruct (Float.ltb (Float.of_int n) 0) eqn:T.
  - apply FloatExact.ltb_lt in T. rewrite E in T.
    assert (N : n < 0) by (rewrite Zlt_Qlt; exact T).
    destruct n as [|p|p]; try lia. reflexivity.
  - assert (N : 0 <= n).
    { destruct (Z.le_gt_cases 0 n) as [P|N]; [exact P|exfalso].
      assert (L : Float.ltb (Float.of_int n) 0 = true).
      { apply FloatExact.ltb_lt. rewrite E. change 0%Q with (inject_Z 0). rewrite <- Zlt_Qlt. exact N. }
      congruence. }
    rewrite Z.abs_eq by exact N. reflexivity.
Qed.

Lemma f_of_int_witness : Z.abs 3 < 2 ^ 53 /\ f (Float.of_int 3) = "3.00".
Proof.
  assert (H : Z.abs 3 < 2 ^ 53) by (vm_compute; reflexivity).
  split; [exact H|]. rewrite (f_of_int 3 H). reflexivity.
Defined.

(* ================================================================== *)
(** * Checks of the model on known values *)
(* ================================================================== *)

Local Close Scope nat_scope.

(** The largest [int] that converts to a float is one below
    [2^1024 - 2^970]; the quotient of two [int]s is rounded once. *)
Example overflow_threshold :
  in_range (Float.of_int (2 ^ 1024 - 2 ^ 970 - 1)) = true
  /\ in_range (Float.of_int (2 ^ 1024 - 2 ^ 970)) = false
  /\ in_range (int_div (10 ^ 400) 2) = false
  /\ in_range (int_div (10 ^ 400) (10 ^ 395)) = true.
Proof. vm_compute. repeat split. Qed.

Example sha256_abc :
  hex_of (Sha256.digest (encode_utf8 "abc"))
  = 0xba7816bf8f01cfea414140de5dae2223b00361a396177a9cb410ff61f20015ad.
Proof. vm_compute. reflexivity. Qed.

Example sha256_two_blocks :
  hex_of (Sha256.digest
            (encode_utf8 "abcdbcdecdefdefgefghfghighijhijkijkljklmklmnlmnomnopnopq"))
  = 0x248d6a61d20638b8e5c026930c3e6039a33ce45964ff2167f6ecedd419db06c1.
Proof. vm_compute. reflexivity. Qed.

Example sha256_empty :
  hex_of (Sha256.digest (encode_utf8 ""))
  = 0xe3b0c44298fc1c149afbf4c8996fb92427ae41e4649b934ca495991b7852b855.
Proof. vm_compute. reflexivity. Qed.

Example f_examples :
  map (fun q => f (Float.fl q)) [0.125; 0.375; -0.001; 12.345; 800; 0.90; 2.675]%Q
  = ["0.12"; "0.38"; "-0.00"; "12.35"; "800.00"; "0.90"; "2.67"].
Proof. vm_compute. reflexivity. Qed.

(** The generator of seed abc123: the state is the first digest word
    0x6ca13d52, and the first draws. *)
Example abc123_draws :
  state (make_rng "abc123") = 0x6ca13d52
  /\ map (fun n => fst (next_u32 (after_draws n (make_rng "abc123")))) [0; 1; 2]%nat
     = [710951479; 1727059876; 4236860774]
  /\ fst (rgb false (make_rng "abc123")) = "rgb(55, 215, 137)".
Proof. vm_compute. repeat split. Qed.

(** The grid shapes of seed abc123 on a 64-pixel canvas of 2 by 2 cells. *)
Example abc123_grid :
  map node_of (fst (grid (int_div 64 2) 2 (after_draws 3 (make_rng "abc123"))))
  = [ mkNode "circle" [("cx", "16.26"); ("cy", "11.00"); ("r", "11.94");
                       ("fill", "rgb(209, 206, 29)"); ("fill-opacity", "0.31")] EmptyTag;
      mkNode "circle" [("cx", "40.16"); ("cy", "19.96"); ("r", "10.07");
                       ("fill", "rgb(204, 203, 18)"); ("fill-opacity", "0.27")] EmptyTag;
      mkNode "rect" [("x", "2.44"); ("y", "33.18"); ("width", "25.97");
                     ("height", "20.35"); ("fill", "rgb(3, 151, 38)");
                     ("fill-opacity", "0.72")] EmptyTag;
      mkNode "circle" [("cx", "46.79"); ("cy", "55.96"); ("r", "14.92");
                       ("fill", "rgb(199, 210, 176)"); ("fill-opacity", "0.53")] EmptyTag ].
Proof. vm_compute. reflexivity. Qed.

(** The markup of a node. *)
Example render_circle :
  render (Anchor 32 32 (Float.fl 1.92) "rgb(217, 105, 77)")
  = "<circle cx=" ++ dquote ++ "32.00" ++ dquote ++ " cy=" ++ dquote ++ "32.00" ++ dquote
    ++ " r=" ++ dquote ++ "1.92" ++ dquote
    ++ " fill=" ++ dquote ++ "rgb(217, 105, 77)" ++ dquote ++ "/>".
Proof. vm_compute. reflexivity. Qed.

(** The model agrees with the kernel's binary64. *)
Example literals_agree :
  forallb (fun a => Binary64.same (Binary64.value (fst a)) (lit (snd a))) Binary64.literals = true.
Proof. vm_compute. reflexivity. Qed.

Example operations_agree :
  Binary64.agree PrimFloat.add Float.add = true /\ Binary64.agree PrimFloat.sub Float.sub = true
  /\ Binary64.agree PrimFloat.mul Float.mul = true /\ Binary64.agree PrimFloat.div Float.div = true.
Proof. vm_compute. repeat split. Qed.

Example math_pi_agrees : Binary64.same (Binary64.value 0x1.921fb54442d18p+1%float) math_pi = true.
Proof. vm_compute. reflexivity. Qed.

Example rand01_agrees :
  Binary64.same (Binary64.value (710951479 / 4294967296)%float) (fst (rand01 (make_rng "abc123"))) = true.
Proof. vm_compute. reflexivity. Qed.
